(** * Row-wise softmax kernel and its occupancy-aware launcher
    (day42/tlfsoftmax.py)

    The development follows the Python file top to bottom:
    the host-side helpers ([next_power_of_2], the step table for
    [num_wraps]), the device value domain, the Triton kernel
    [_softmax_kernel] over a flat memory, and the wrapper [softmax]
    as a program in a small trace-and-error monad. *)

From Stdlib Require Import ZArith List Bool Lia Reals Lra Sorted Permutation.
Import ListNotations.

Local Open Scope Z_scope.

(** ** Host-side integer helpers *)

Module Host.

(** One step [n |= n >> s] of the bit smearing. *)
Definition or_shr (n s : Z) : Z := Z.lor n (Z.shiftr n s).

(** [triton.next_power_of_2], the library routine called on line 59.
    Its body in the Triton package is
      n -= 1; n |= n >> 1; n |= n >> 2; n |= n >> 4;
      n |= n >> 8; n |= n >> 16; n |= n >> 32; n += 1; return n
    on Python's unbounded integers ([>>] is the arithmetic shift, [|] the
    two's-complement or, which is what [Z.shiftr] and [Z.lor] are). *)
Definition next_power_of_2 (n : Z) : Z :=
  let n := n - 1 in
  let n := or_shr n 1 in
  let n := or_shr n 2 in
  let n := or_shr n 4 in
  let n := or_shr n 8 in
  let n := or_shr n 16 in
  let n := or_shr n 32 in
  n + 1.

(** Lines 61-65: [num_wraps = 4], then two overriding [if]s. *)
Definition choose_num_wraps (BLOCK_SIZE : Z) : Z :=
  let num_wraps := 4 in
  let num_wraps := if 2048 <=? BLOCK_SIZE then 8 else num_wraps in
  let num_wraps := if 4096 <=? BLOCK_SIZE then 16 else num_wraps in
  num_wraps.

(** Line 67: [num_stages = 4 if TOTAL_SRAM_PER_SM > 200_000 else 2]. *)
Definition choose_num_stages (TOTAL_SRAM_PER_SM : Z) : Z :=
  if 200000 <? TOTAL_SRAM_PER_SM then 4 else 2.

(** Python's [a // b]: floor division, [ZeroDivisionError] when [b = 0].
    [Z.div] rounds towards minus infinity for either sign of the divisor,
    as Python does; only the zero divisor differs and is made explicit. *)
Definition floordiv (a b : Z) : option Z :=
  if b =? 0 then None else Some (a / b).

(** The step table of the specification, keyed by block size. *)
Definition width_table (block_size : Z) : Z :=
  if block_size <? 2048 then 4
  else if block_size <? 4096 then 8
  else 16.

(** A power of two: [2 ^ k] for a natural exponent. *)
Definition is_pow2 (p : Z) : Prop := exists k, 0 <= k /\ p = 2 ^ k.

(** [p] is the least power of two that is at least [n]. *)
Definition smallest_pow2_geq (n p : Z) : Prop :=
  is_pow2 p /\ n <= p /\ forall q, is_pow2 q -> n <= q -> p <= q.

(** After smearing with total reach [w], bit [i] of the result is set
    exactly when some bit of [m] in the window [i .. i+w-1] is set. *)
Definition smeared (m r w : Z) : Prop :=
  forall i, 0 <= i ->
    (Z.testbit r i = true <-> exists d, 0 <= d < w /\ Z.testbit m (i + d) = true).

End Host.

(** ** Device values and memory *)

Module Values.

Local Open Scope R_scope.

(** A float as the kernel sees it, with rounding left out: a real number,
    one of the two infinities, or NaN.  Signed zeros are identified. *)
Inductive xreal : Type :=
  | Fin (r : R)
  | PInf
  | NInf
  | NaN.

(** [tl.maximum] as used by [tl.max]: a NaN operand is dropped. *)
Definition xmax (a b : xreal) : xreal :=
  match a, b with
  | NaN, _ => b
  | _, NaN => a
  | PInf, _ => PInf
  | _, PInf => PInf
  | NInf, _ => b
  | _, NInf => a
  | Fin x, Fin y => Fin (Rmax x y)
  end.

Definition xadd (a b : xreal) : xreal :=
  match a, b with
  | NaN, _ | _, NaN => NaN
  | PInf, NInf | NInf, PInf => NaN
  | PInf, _ | _, PInf => PInf
  | NInf, _ | _, NInf => NInf
  | Fin x, Fin y => Fin (x + y)
  end.

Definition xsub (a b : xreal) : xreal :=
  match a, b with
  | NaN, _ | _, NaN => NaN
  | PInf, PInf | NInf, NInf => NaN
  | PInf, _ | _, NInf => PInf
  | NInf, _ | _, PInf => NInf
  | Fin x, Fin y => Fin (x - y)
  end.

Definition xexp (a : xreal) : xreal :=
  match a with
  | Fin x => Fin (exp x)
  | PInf => PInf
  | NInf => Fin 0
  | NaN => NaN
  end.

(** The infinity carrying the sign of [x] ([x] non-zero). *)
Definition signed_inf (x : R) : xreal :=
  if Rlt_dec 0 x then PInf else NInf.

Definition xneg (a : xreal) : xreal :=
  match a with
  | Fin x => Fin (- x)
  | PInf => NInf
  | NInf => PInf
  | NaN => NaN
  end.

Definition xdiv (a b : xreal) : xreal :=
  match a, b with
  | NaN, _ | _, NaN => NaN
  | Fin x, Fin y =>
      if Req_EM_T y 0 then (if Req_EM_T x 0 then NaN else signed_inf x)
      else Fin (x / y)
  | Fin _, _ => Fin 0
  | _, Fin y => if Rlt_dec y 0 then xneg a else a
  | _, _ => NaN
  end.

(** Device memory, addressed in elements. *)
Definition mem : Type := Z -> xreal.

Definition upd (m : mem) (p : Z) (v : xreal) : mem :=
  fun a => if Z.eqb a p then v else m a.

End Values.

(** ** The Triton kernel *)

Module Kernel.

Import Values.

(** [tl.arange(lo, hi)]: the block [lo, lo+1, ..., hi-1]. *)
Definition tl_arange (lo hi : Z) : list Z :=
  map (fun k => lo + Z.of_nat k) (seq 0 (Z.to_nat (hi - lo))).

(** [tl.range(start, stop, step)] with a positive step, as Python's
    [range]: [start + k*step] for [k] below [ceil((stop-start)/step)].
    The kernel's step is [tl.num_programs(0)], at least 1 in every
    running instance; other steps yield no iteration here. *)
Definition tl_range (start stop step : Z) : list Z :=
  if 0 <? step
  then map (fun k => start + Z.of_nat k * step)
           (seq 0 (Z.to_nat ((stop - start + step - 1) / step)))
  else [].

(** [tl.load(ptrs, mask=mask, other=other)]: a masked-off lane takes
    [other] and its address is not dereferenced. *)
Definition tl_load (m : mem) (ptrs : list Z) (mask : list bool)
    (other : xreal) : list xreal :=
  map (fun pb : Z * bool => if snd pb then m (fst pb) else other)
      (combine ptrs mask).

(** [tl.store(ptrs, vals, mask=mask)]: only the lanes whose mask bit is
    set are written. *)
Fixpoint tl_store (m : mem) (ptrs : list Z) (vals : list xreal)
    (mask : list bool) : mem :=
  match ptrs, vals, mask with
  | p :: ptrs', v :: vals', b :: mask' =>
      tl_store (if b then upd m p v else m) ptrs' vals' mask'
  | _, _, _ => m
  end.

(** A reduction over the lanes of a block; [unit] only stands for the
    result on a block without lanes. *)
Definition reduce (f : xreal -> xreal -> xreal) (unit : xreal)
    (block : list xreal) : xreal :=
  match block with
  | [] => unit
  | v :: rest => fold_left f rest v
  end.

Definition tl_max (block : list xreal) : xreal := reduce xmax NInf block.
Definition tl_sum (block : list xreal) : xreal := reduce xadd (Fin 0%R) block.

Section Body.

Variables (input_ptr output_ptr : Z).
Variables (input_row_stride output_row_stride : Z).
Variables (n_rows n_cols : Z).
Variable BLOCK_SIZE : Z.

(** Lines 24 and 28. *)
Definition col_offsets : list Z := tl_arange 0 BLOCK_SIZE.
Definition mask : list bool := map (fun c => c <? n_cols) col_offsets.

(** Lines 21, 27 and 30. *)
Definition input_ptrs (row_idx : Z) : list Z :=
  let row_start_ptr := input_ptr + row_idx * input_row_stride in
  map (fun c => row_start_ptr + c) col_offsets.

Definition load_row (m : mem) (row_idx : Z) : list xreal :=
  tl_load m (input_ptrs row_idx) mask NInf.

(** Lines 33-38. *)
Definition numerator (row : list xreal) : list xreal :=
  let row_minus_max := map (fun v => xsub v (tl_max row)) row in
  map xexp row_minus_max.

Definition denominator (row : list xreal) : xreal :=
  tl_sum (numerator row).

Definition softmax_output (row : list xreal) : list xreal :=
  map (fun v => xdiv v (denominator row)) (numerator row).

(** Lines 41 and 43. *)
Definition output_ptrs (row_idx : Z) : list Z :=
  let output_row_start_ptr := output_ptr + row_idx * output_row_stride in
  map (fun c => output_row_start_ptr + c) col_offsets.

(** One iteration of the loop on line 19. *)
Definition softmax_row (m : mem) (row_idx : Z) : mem :=
  let row := load_row m row_idx in
  tl_store m (output_ptrs row_idx) (softmax_output row) mask.

(** The rows an instance visits: line 19 with
    [row_start = tl.program_id(0)], [row_step = tl.num_programs(0)]. *)
Definition rows_of (program_id num_programs : Z) : list Z :=
  tl_range program_id n_rows num_programs.

(** One kernel instance. *)
Definition softmax_kernel (program_id num_programs : Z) (m : mem) : mem :=
  fold_left softmax_row (rows_of program_id num_programs) m.

(** A launch over the grid [(num_programs, 1, 1)].  The instances do
    not communicate; they are run one after the other, in the order of
    their ids.  A grid without instances runs nothing. *)
Definition launch (num_programs : Z) (m : mem) : mem :=
  fold_left (fun m pid => softmax_kernel pid num_programs m)
            (tl_arange 0 num_programs) m.

End Body.

(** The addresses a masked access touches: those of the enabled lanes. *)
Definition enabled_ptrs (ptrs : list Z) (mask : list bool) : list Z :=
  map fst (filter snd (combine ptrs mask)).

Section Accesses.

Variables (input_ptr output_ptr : Z).
Variables (input_row_stride output_row_stride : Z).
Variables (n_rows n_cols : Z).
Variable BLOCK_SIZE : Z.

(** The addresses line 30 loads from and line 43 stores to, for one row. *)
Definition row_reads (row_idx : Z) : list Z :=
  enabled_ptrs (input_ptrs input_ptr input_row_stride BLOCK_SIZE row_idx)
               (mask n_cols BLOCK_SIZE).

Definition row_writes (row_idx : Z) : list Z :=
  enabled_ptrs (output_ptrs output_ptr output_row_stride BLOCK_SIZE row_idx)
               (mask n_cols BLOCK_SIZE).

(** The same, over all the rows of one instance. *)
Definition instance_reads (program_id num_programs : Z) : list Z :=
  flat_map row_reads (rows_of n_rows program_id num_programs).

Definition instance_writes (program_id num_programs : Z) : list Z :=
  flat_map row_writes (rows_of n_rows program_id num_programs).

End Accesses.

End Kernel.

(** ** The host wrapper *)

Module Launcher.

Import Values Host.

(** The entries of the driver's property dictionary read on lines 46-52. *)
Record DeviceProperties : Type := {
  multiprocessor_count : Z;   (* NUM_SM *)
  max_num_regs : Z;           (* NUM_REGS *)
  max_shared_mem : Z;         (* TOTAL_SRAM_PER_SM *)
  warpSize : Z                (* WARP_SIZE *)
}.

(** What the wrapper reads off a compiled kernel (lines 82-83). *)
Record CompiledKernel : Type := {
  n_regs : Z;
  metadata_shared : Z
}.

(** A torch tensor: base address, shape and strides in elements. *)
Record Tensor : Type := {
  data_ptr : Z;
  shape : list Z;
  stride : list Z
}.

(** [t.stride(0)]. *)
Definition stride0 (t : Tensor) : Z := nth 0 (stride t) 0.

(** The arguments of the [warmup] call on lines 71-77, buffers apart. *)
Record WarmupArgs : Type := {
  w_input_row_stride : Z;
  w_output_row_stride : Z;
  w_n_rows : Z;
  w_n_cols : Z;
  w_BLOCK_SIZE : Z;
  w_num_stages : Z;
  w_num_wraps : Z
}.

(** Calls that leave the host program. *)
Inductive event : Type :=
  | EvGetDeviceProperties
  | EvEmptyLike
  | EvWarmup (args : WarmupArgs)
  | EvInitHandles
  | EvLaunch (grid : Z).

(** The exceptions the wrapper can end with. *)
Inductive error : Type :=
  | AssertionError
  | CompilationError
  | ZeroDivisionError.

(** Device memory together with the calls made so far, oldest first. *)
Record world : Type := {
  heap : mem;
  trace : list event
}.

(** Host programs: they may raise, and they act on the world. *)
Definition M (A : Type) : Type := world -> (error + A) * world.

Definition ret {A} (a : A) : M A := fun w => (inr a, w).

Definition raise {A} (e : error) : M A := fun w => (inl e, w).

Definition bind {A B} (c : M A) (k : A -> M B) : M B :=
  fun w =>
    match c w with
    | (inl e, w') => (inl e, w')
    | (inr a, w') => k a w'
    end.

Notation "x <- c ;; k" := (bind c (fun x => k))
  (at level 61, c at next level, right associativity).

Definition emit (e : event) : M unit :=
  fun w => (inr tt, {| heap := heap w; trace := trace w ++ [e] |}).

Definition on_heap (f : mem -> mem) : M unit :=
  fun w => (inr tt, {| heap := f (heap w); trace := trace w |}).

(** An integer division that raises on a zero divisor. *)
Definition div_or_raise (a b : Z) : M Z :=
  match floordiv a b with
  | Some q => ret q
  | None => raise ZeroDivisionError
  end.

(** Lines 46-52, run once when the module is loaded: the only place the
    device is asked for its capabilities. *)
Definition load_properties (driver : DeviceProperties) : M DeviceProperties :=
  _ <- emit EvGetDeviceProperties ;;
  ret driver.

Section Wrapper.

(** The module-level globals of lines 47-52. *)
Variable properties : DeviceProperties.

(** The compiler behind [_softmax_kernel.warmup]: it fails ([None]) or
    yields the compiled kernel with its footprint. *)
Variable compiler : WarmupArgs -> option CompiledKernel.

Let NUM_SM := multiprocessor_count properties.
Let NUM_REGS := max_num_regs properties.
Let TOTAL_SRAM_PER_SM := max_shared_mem properties.
Let WARP_SIZE := warpSize properties.

Definition warmup (args : WarmupArgs) : M CompiledKernel :=
  _ <- emit (EvWarmup args) ;;
  match compiler args with
  | Some kernel => ret kernel
  | None => raise CompilationError
  end.

(** [kernel[grid](x, y, x.stride(0), y.stride(0), n_rows, n_cols)]
    with the block size fixed at compile time. *)
Definition run_kernel (grid : Z) (x y : Tensor) (n_rows n_cols BLOCK_SIZE : Z)
    : M unit :=
  _ <- emit (EvLaunch grid) ;;
  on_heap (Kernel.launch (data_ptr x) (data_ptr y) (stride0 x) (stride0 y)
             n_rows n_cols BLOCK_SIZE grid).

(** [softmax(x)], lines 55-105.  [y] is the tensor that
    [torch.empty_like(x)] hands back: freshly allocated, contents
    whatever the heap holds there. *)
Definition softmax (x y : Tensor) : M Tensor :=
  match shape x with
  | [n_rows; n_cols] =>
      let BLOCK_SIZE := next_power_of_2 n_cols in
      let num_wraps := choose_num_wraps BLOCK_SIZE in
      let num_stages := choose_num_stages TOTAL_SRAM_PER_SM in
      _ <- emit EvEmptyLike ;;
      kernel <- warmup {| w_input_row_stride := stride0 x;
                          w_output_row_stride := stride0 y;
                          w_n_rows := n_rows;
                          w_n_cols := n_cols;
                          w_BLOCK_SIZE := BLOCK_SIZE;
                          w_num_stages := num_stages;
                          w_num_wraps := num_wraps |} ;;
      _ <- emit EvInitHandles ;;
      reg_occupancy <-
        div_or_raise NUM_REGS (n_regs kernel * WARP_SIZE * num_wraps) ;;
      sram_occupancy <-
        div_or_raise TOTAL_SRAM_PER_SM (metadata_shared kernel) ;;
      let programs_per_sm := Z.min reg_occupancy sram_occupancy in
      let num_programs := Z.min (NUM_SM * programs_per_sm) n_rows in
      _ <- run_kernel num_programs x y n_rows n_cols BLOCK_SIZE ;;
      ret y
  | _ => raise AssertionError
  end.

End Wrapper.

End Launcher.

(** ** What the specification says, in its own words *)

Module Reference.

Import Values Launcher.

(** Occupancy of one compute unit, as the planner's steps 5-7 put it. *)
Definition instances_per_unit (caps : DeviceProperties)
    (fp : CompiledKernel) (concurrency_width : Z) : Z :=
  Z.min (max_num_regs caps / (n_regs fp * warpSize caps * concurrency_width))
        (max_shared_mem caps / metadata_shared fp).

(** Step 8 of the planner. *)
Definition num_programs (caps : DeviceProperties) (fp : CompiledKernel)
    (concurrency_width n_rows : Z) : Z :=
  Z.min (multiprocessor_count caps * instances_per_unit caps fp concurrency_width)
        n_rows.

(** The arguments the wrapper compiles with, for a matrix of the given
    shape on the given device. *)
Definition planned_args (caps : DeviceProperties) (x y : Tensor)
    (n_rows n_cols : Z) : WarmupArgs :=
  {| w_input_row_stride := stride0 x;
     w_output_row_stride := stride0 y;
     w_n_rows := n_rows;
     w_n_cols := n_cols;
     w_BLOCK_SIZE := Host.next_power_of_2 n_cols;
     w_num_stages := Host.choose_num_stages (max_shared_mem caps);
     w_num_wraps := Host.choose_num_wraps (Host.next_power_of_2 n_cols) |}.

(** The calls one successful run of the wrapper adds to the trace. *)
Definition run_events (args : WarmupArgs) (grid : Z) : list event :=
  [EvEmptyLike; EvWarmup args; EvInitHandles; EvLaunch grid].

Local Open Scope R_scope.

(** The maximum of a row of reals (of its head when it is alone). *)
Definition row_max (l : list R) : R :=
  match l with
  | [] => 0
  | v :: rest => fold_left Rmax rest v
  end.

Definition row_sum (l : list R) : R := fold_left Rplus l 0.

(** The first [n_cols] entries of a row given by its entries. *)
Definition row_values (xr : Z -> R) (n_cols : Z) : list R :=
  map xr (Kernel.tl_arange 0 n_cols).

(** The exponentials [exp (x_k - max)] of a row. *)
Definition row_exps (xr : Z -> R) (n_cols : Z) : list R :=
  map (fun v => exp (v - row_max (row_values xr n_cols)))
      (row_values xr n_cols).

(** Entry [c] of the softmax of a row:
    [exp (x_c - max_j x_j) / sum_j exp (x_j - max_j x_j)]. *)
Definition softmax_value (xr : Z -> R) (n_cols c : Z) : R :=
  exp (xr c - row_max (row_values xr n_cols)) / row_sum (row_exps xr n_cols).

(** Entry [(r, c)] of the row-wise softmax of the matrix [X]. *)
Definition softmax_entry (X : Z -> Z -> R) (n_cols r c : Z) : R :=
  softmax_value (X r) n_cols c.

Local Open Scope Z_scope.

(** The heap holds the matrix [X] in the layout of tensor [x]:
    entry [(r, c)] at [data_ptr + r * stride(0) + c]. *)
Definition holds (m : mem) (x : Tensor) (n_rows n_cols : Z)
    (X : Z -> Z -> R) : Prop :=
  forall r c, 0 <= r < n_rows -> 0 <= c < n_cols ->
    m (data_ptr x + r * stride0 x + c) = Fin (X r c).

(** [a] is the address of an entry of the [n_rows] by [n_cols] tensor [t]. *)
Definition cell_of (t : Tensor) (n_rows n_cols a : Z) : Prop :=
  exists r c, 0 <= r < n_rows /\ 0 <= c < n_cols
              /\ a = data_ptr t + r * stride0 t + c.

(** No entry of [x] shares its address with an entry of [y]. *)
Definition disjoint (x y : Tensor) (n_rows n_cols : Z) : Prop :=
  forall a, cell_of x n_rows n_cols a -> ~ cell_of y n_rows n_cols a.

(** All the rows a launch visits, instance after instance. *)
Definition schedule (n_rows num_programs : Z) : list Z :=
  flat_map (fun pid => Kernel.rows_of n_rows pid num_programs)
           (Kernel.tl_arange 0 num_programs).

(** A list of integers in strictly increasing order. *)
Definition strictly_increasing (l : list Z) : Prop := StronglySorted Z.lt l.

(** The four ways a call can end. *)
Inductive outcome (caps : DeviceProperties) (x y : Tensor) (w : world)
    : (error + Tensor) * world -> Prop :=
  | Rejected :
      length (shape x) <> 2%nat ->
      outcome caps x y w (inl AssertionError, w)
  | NotCompiled n_rows n_cols :
      shape x = [n_rows; n_cols] ->
      outcome caps x y w
        (inl CompilationError,
         {| heap := heap w;
            trace := trace w ++
              [EvEmptyLike;
               EvWarmup (planned_args caps x y n_rows n_cols)] |})
  | DividedByZero n_rows n_cols :
      shape x = [n_rows; n_cols] ->
      outcome caps x y w
        (inl ZeroDivisionError,
         {| heap := heap w;
            trace := trace w ++
              [EvEmptyLike;
               EvWarmup (planned_args caps x y n_rows n_cols);
               EvInitHandles] |})
  | Launched n_rows n_cols grid :
      shape x = [n_rows; n_cols] ->
      grid <= n_rows ->
      outcome caps x y w
        (inr y,
         {| heap := Kernel.launch (data_ptr x) (data_ptr y) (stride0 x)
                      (stride0 y) n_rows n_cols (Host.next_power_of_2 n_cols)
                      grid (heap w);
            trace := trace w ++
              run_events
                (planned_args caps x y n_rows n_cols) grid |}).

(** The setting in which the wrapper serves a matrix of reals: a rank-2
    input of at least one column holding [X], an output buffer apart from
    it whose rows do not overlap, a compiler that succeeds with footprint
    [fp], non-zero divisors and room for at least one instance. *)
Definition run_ok (caps : DeviceProperties)
    (compiler : WarmupArgs -> option CompiledKernel) (x y : Tensor)
    (n_rows n_cols : Z) (fp : CompiledKernel) (m : mem)
    (X : Z -> Z -> R) : Prop :=
  shape x = [n_rows; n_cols]
  /\ 1 <= n_cols <= 2 ^ 64
  /\ holds m x n_rows n_cols X
  /\ disjoint x y n_rows n_cols
  /\ n_cols <= stride0 y
  /\ compiler (planned_args caps x y n_rows n_cols) = Some fp
  /\ n_regs fp * warpSize caps
      * Host.width_table (Host.next_power_of_2 n_cols) <> 0
  /\ metadata_shared fp <> 0
  /\ 1 <= multiprocessor_count caps *
          instances_per_unit caps fp
            (Host.width_table (Host.next_power_of_2 n_cols)).

(** A real number in the half-open interval from 0 (excluded) to 1. *)
Definition probability (v : R) : Prop := (0 < v <= 1)%R.

(** Whether an event is a kernel launch. *)
Definition is_launch (e : event) : bool :=
  match e with
  | EvLaunch _ => true
  | _ => false
  end.

End Reference.

(** ** Concrete devices, footprints and tensors *)

Module Examples.

Import Values Launcher.

(** A device with 108 compute units and 166912 bytes of shared memory
    per unit. *)
Definition small_sram : DeviceProperties :=
  {| multiprocessor_count := 108; max_num_regs := 65536;
     max_shared_mem := 166912; warpSize := 32 |}.

(** The same device with more shared memory per unit. *)
Definition large_sram : DeviceProperties :=
  {| multiprocessor_count := 108; max_num_regs := 65536;
     max_shared_mem := 232448; warpSize := 32 |}.

(** A compiler whose kernels take 32 registers and 16 KiB. *)
Definition light_compiler (_ : WarmupArgs) : option CompiledKernel :=
  Some {| n_regs := 32; metadata_shared := 16384 |}.

(** A compiler whose kernels take 255 registers. *)
Definition heavy_compiler (_ : WarmupArgs) : option CompiledKernel :=
  Some {| n_regs := 255; metadata_shared := 1024 |}.

(** A compiler whose deeper pipeline buffers more rows in shared memory. *)
Definition staged_compiler (args : WarmupArgs) : option CompiledKernel :=
  Some {| n_regs := 32;
          metadata_shared := if w_num_stages args =? 4 then 131072 else 16384 |}.

(** A contiguous [rows] by [cols] tensor at address [base]. *)
Definition contiguous (base rows cols : Z) : Tensor :=
  {| data_ptr := base; shape := [rows; cols]; stride := [cols; 1] |}.

(** A world whose memory holds [v] everywhere and whose trace is empty. *)
Definition filled (v : xreal) : world :=
  {| heap := fun _ => v; trace := [] |}.

(** A world whose memory holds zeros below [bound] and NaN from there on. *)
Definition zeros_below (bound : Z) : world :=
  {| heap := fun a => if a <? bound then Fin 0%R else NaN; trace := [] |}.

(** The matrix whose entries are all zero. *)
Definition zero_matrix : Z -> Z -> R := fun _ _ => 0%R.

(** A world whose memory holds zeros, except for [v] at address [a]. *)
Definition zeros_but (a : Z) (v : xreal) : world :=
  {| heap := fun p => if p =? a then v else Fin 0%R; trace := [] |}.

(** A compiler whose kernels use no shared memory. *)
Definition no_sram_compiler (_ : WarmupArgs) : option CompiledKernel :=
  Some {| n_regs := 32; metadata_shared := 0 |}.

(** A compiler that gives up. *)
Definition failing_compiler (_ : WarmupArgs) : option CompiledKernel := None.

End Examples.

(** * Properties *)

Import Values Host Kernel Launcher Examples.

(** ** [next_power_of_2] *)

Section NextPowerOfTwo.


Lemma smeared_init m : smeared m m 1.
Proof.
intros i Hi; split.
- intros H. exists 0. split; [lia|]. now rewrite Z.add_0_r.
- intros (d & Hd & H). replace (i + d) with i in H by lia. exact H.
Qed.

Lemma smeared_step m r w :
0 < w -> smeared m r w -> smeared m (or_shr r w) (2 * w).
Proof.
intros Hw Hs i Hi. unfold or_shr.
rewrite Z.lor_spec, Z.shiftr_spec by lia.
rewrite orb_true_iff, (Hs i Hi), (Hs (i + w)) by lia.
split.
- intros [(d & Hd & H) | (d & Hd & H)].
  + exists d. split; [lia | exact H].
  + exists (w + d). split; [lia|]. now replace (i + (w + d)) with (i + w + d) by lia.
- intros (d & Hd & H).
  destruct (Z_lt_ge_dec d w) as [Hlt | Hge].
  + left. exists d. split; [lia | exact H].
  + right. exists (d - w). split; [lia|].
    now replace (i + w + (d - w)) with (i + d) by lia.
Qed.

Lemma next_power_of_2_smeared n :
exists r, next_power_of_2 n = r + 1 /\ smeared (n - 1) r 64.
Proof.
unfold next_power_of_2. eexists. split; [reflexivity|].
pose proof (smeared_init (n - 1)) as H0.
apply smeared_step in H0; [|lia].
apply (smeared_step _ _ 2) in H0; [|lia].
apply (smeared_step _ _ 4) in H0; [|lia].
apply (smeared_step _ _ 8) in H0; [|lia].
apply (smeared_step _ _ 16) in H0; [|lia].
apply (smeared_step _ _ 32) in H0; [|lia].
exact H0.
Qed.

Lemma smeared_ones m r :
0 < m < 2 ^ 64 -> smeared m r 64 -> r = Z.ones (Z.log2 m + 1).
Proof.
intros Hm Hs.
assert (Hk : 0 <= Z.log2 m < 64).
{ split; [apply Z.log2_nonneg|]. apply Z.log2_lt_pow2; lia. }
apply Z.bits_inj'. intros i Hi.
destruct (Z_lt_ge_dec i (Z.log2 m + 1)) as [Hlt | Hge].
- rewrite Z.ones_spec_low by lia.
  apply (Hs i Hi). exists (Z.log2 m - i). split; [lia|].
  replace (i + (Z.log2 m - i)) with (Z.log2 m) by lia.
  apply Z.bit_log2. lia.
- rewrite Z.ones_spec_high by lia.
  destruct (Z.testbit r i) eqn:E; [|reflexivity].
  apply (Hs i Hi) in E. destruct E as (d & Hd & E).
  rewrite Z.bits_above_log2 in E by lia. discriminate.
Qed.

Lemma next_power_of_2_log2 n :
1 < n <= 2 ^ 64 -> next_power_of_2 n = 2 ^ (Z.log2 (n - 1) + 1).
Proof.
intros Hn. destruct (next_power_of_2_smeared n) as (r & -> & Hs).
rewrite (smeared_ones (n - 1) r) by (try exact Hs; lia).
rewrite Z.ones_equiv. lia.
Qed.

Lemma is_pow2_mono_gt k q :
0 <= k -> is_pow2 q -> 2 ^ k < q -> 2 ^ (k + 1) <= q.
Proof.
intros Hk (j & Hj & ->) Hlt.
apply Z.pow_lt_mono_r_iff in Hlt; [|lia|lia].
apply Z.pow_le_mono_r; lia.
Qed.

(** The library routine meets its docstring on [1 .. 2^64]. *)
Lemma next_power_of_2_smallest n :
1 <= n <= 2 ^ 64 -> smallest_pow2_geq n (next_power_of_2 n).
Proof.
intros Hn. destruct (Z.eq_dec n 1) as [-> | Hne].
- repeat split.
  + exists 0. split; [lia | reflexivity].
  + vm_compute. discriminate.
  + intros q (j & Hj & ->) _. change (next_power_of_2 1) with (2 ^ 0).
    apply Z.pow_le_mono_r; lia.
- rewrite next_power_of_2_log2 by lia.
  assert (Hm : 0 < n - 1) by lia.
  pose proof (Z.log2_spec (n - 1) Hm) as [Hlo Hhi].
  pose proof (Z.log2_nonneg (n - 1)) as Hk.
  rewrite <- Z.add_1_r in Hhi.
  repeat split.
  + exists (Z.log2 (n - 1) + 1). split; [lia | reflexivity].
  + lia.
  + intros q Hq Hle. apply is_pow2_mono_gt; [exact Hk | exact Hq | lia].
Qed.

Lemma next_power_of_2_geq n :
0 <= n <= 2 ^ 64 -> n <= next_power_of_2 n.
Proof.
intros Hn. destruct (Z.eq_dec n 0) as [-> | Hne].
- vm_compute. discriminate.
- apply next_power_of_2_smallest. lia.
Qed.

Lemma not_is_pow2_0 : ~ is_pow2 0.
Proof.
intros (k & Hk & H). pose proof (Z.pow_pos_nonneg 2 k). lia.
Qed.

End NextPowerOfTwo.

(** ** The wrapper, step by step *)

Section WrapperFacts.

Variable properties : DeviceProperties.
Variable compiler : WarmupArgs -> option CompiledKernel.
Variables (x y : Tensor) (n_rows n_cols : Z).
Hypothesis Hshape : shape x = [n_rows; n_cols].

Let args := Reference.planned_args properties x y n_rows n_cols.
Let width := choose_num_wraps (next_power_of_2 n_cols).

(** The grid the wrapper computes from a footprint (lines 86-93). *)
Let grid_of (k : CompiledKernel) : Z :=
  Z.min (multiprocessor_count properties *
         Z.min (max_num_regs properties / (n_regs k * warpSize properties * width))
               (max_shared_mem properties / metadata_shared k))
        n_rows.

(** A run in which the compiler succeeds and no divisor is zero. *)
Lemma softmax_run (k : CompiledKernel) (w : world) :
  compiler args = Some k ->
  n_regs k * warpSize properties * width <> 0 ->
  metadata_shared k <> 0 ->
  softmax properties compiler x y w =
    (inr y,
     {| heap := Kernel.launch (data_ptr x) (data_ptr y) (stride0 x) (stride0 y)
                  n_rows n_cols (next_power_of_2 n_cols) (grid_of k) (heap w);
        trace := trace w ++ Reference.run_events args (grid_of k) |}).
Proof.
  intros Hc Hr Hs. unfold softmax. rewrite Hshape.
  unfold bind, warmup, bind, emit, div_or_raise, floordiv, run_kernel, bind,
    emit, on_heap, ret; cbn [heap trace fst snd].
  change (compiler _) with (compiler args). rewrite Hc.
  fold width.
  destruct (Z.eqb_spec (n_regs k * warpSize properties * width) 0) as [E|_];
    [contradiction|].
  destruct (Z.eqb_spec (metadata_shared k) 0) as [E|_]; [contradiction|].
  cbn [heap trace]. unfold Reference.run_events, grid_of.
  repeat rewrite <- app_assoc. reflexivity.
Qed.

(** The compile call is made whatever happens afterwards. *)
Lemma softmax_compiles (w : world) :
  exists rest,
    trace (snd (softmax properties compiler x y w)) =
      trace w ++ EvEmptyLike :: EvWarmup args :: rest.
Proof.
  unfold softmax. rewrite Hshape.
  unfold bind, warmup, bind, emit, div_or_raise, floordiv, run_kernel, bind,
    emit, on_heap, ret, raise; cbn [heap trace fst snd].
  change (compiler _) with (compiler args).
  change (EvWarmup _) with (EvWarmup args). fold width.
  destruct (compiler args) as [k|]; cbn [heap trace snd].
  - destruct (n_regs k * warpSize properties * width =? 0);
      cbn [heap trace snd].
    + exists [EvInitHandles]. now repeat rewrite <- app_assoc.
    + destruct (metadata_shared k =? 0); cbn [heap trace snd].
      * exists [EvInitHandles]. now repeat rewrite <- app_assoc.
      * eexists. repeat rewrite <- app_assoc. reflexivity.
  - exists []. now repeat rewrite <- app_assoc.
Qed.

(** A zero divisor ends the wrapper before the launch. *)
Lemma softmax_zero_division (k : CompiledKernel) (w : world) :
  compiler args = Some k ->
  n_regs k * warpSize properties * width = 0 \/ metadata_shared k = 0 ->
  softmax properties compiler x y w =
    (inl ZeroDivisionError,
     {| heap := heap w;
        trace := trace w ++ [EvEmptyLike; EvWarmup args; EvInitHandles] |}).
Proof.
  intros Hc Hz. unfold softmax. rewrite Hshape.
  unfold bind, warmup, bind, emit, div_or_raise, floordiv, run_kernel, bind,
    emit, on_heap, ret, raise; cbn [heap trace fst snd].
  change (compiler _) with (compiler args).
  change (EvWarmup _) with (EvWarmup args). rewrite Hc. fold width.
  cbn [heap trace].
  destruct (Z.eqb_spec (n_regs k * warpSize properties * width) 0) as [E|N].
  - now repeat rewrite <- app_assoc.
  - destruct Hz as [Hz|Hz]; [contradiction|].
    rewrite Hz. cbn. now repeat rewrite <- app_assoc.
Qed.

End WrapperFacts.

(** ** Grid arithmetic *)

Section GridFacts.

Lemma launch_no_instance ip op si so nr nc bs grid (m : mem) :
  grid <= 0 -> Kernel.launch ip op si so nr nc bs grid m = m.
Proof.
  intros Hg. unfold Kernel.launch, tl_arange.
  replace (Z.to_nat (grid - 0)) with 0%nat by lia. reflexivity.
Qed.

Lemma choose_num_wraps_table bs : choose_num_wraps bs = width_table bs.
Proof.
  unfold choose_num_wraps, width_table.
  destruct (Z.leb_spec 2048 bs), (Z.leb_spec 4096 bs),
    (Z.ltb_spec bs 2048), (Z.ltb_spec bs 4096); lia || reflexivity.
Qed.

Lemma div_le_numerator a b d : 0 < d -> a <= b -> a / d <= b / d.
Proof. intros Hd Hab. apply Z.div_le_mono; assumption. Qed.

(** The wrapper's run in the words of the specification's planner. *)
Lemma softmax_planned (caps : DeviceProperties)
    (compiler : WarmupArgs -> option CompiledKernel)
    (x y : Tensor) (n_rows n_cols : Z) (fp : CompiledKernel) (w : world) :
  shape x = [n_rows; n_cols] ->
  compiler (Reference.planned_args caps x y n_rows n_cols) = Some fp ->
  n_regs fp * warpSize caps * width_table (next_power_of_2 n_cols) <> 0 ->
  metadata_shared fp <> 0 ->
  softmax caps compiler x y w =
    (inr y,
     {| heap := Kernel.launch (data_ptr x) (data_ptr y) (stride0 x)
                  (stride0 y) n_rows n_cols (next_power_of_2 n_cols)
                  (Reference.num_programs caps fp
                     (width_table (next_power_of_2 n_cols)) n_rows) (heap w);
        trace := trace w ++
                 Reference.run_events
                   (Reference.planned_args caps x y n_rows n_cols)
                   (Reference.num_programs caps fp
                      (width_table (next_power_of_2 n_cols)) n_rows) |}).
Proof.
  intros Hshape Hc Hr Hs.
  rewrite (softmax_run caps compiler x y n_rows n_cols Hshape fp w Hc);
    [| rewrite choose_num_wraps_table; exact Hr | exact Hs].
  unfold Reference.num_programs, Reference.instances_per_unit.
  rewrite choose_num_wraps_table. reflexivity.
Qed.

End GridFacts.

(** C9: the concurrency width the wrapper chooses is the step table of
    the block size: 4 below 2048, 8 from 2048 up to 4095, 16 from 4096. *)
Theorem num_wraps_step_table (BLOCK_SIZE : Z) :
  choose_num_wraps BLOCK_SIZE = width_table BLOCK_SIZE
  /\ (BLOCK_SIZE < 2048 -> choose_num_wraps BLOCK_SIZE = 4)
  /\ (2048 <= BLOCK_SIZE < 4096 -> choose_num_wraps BLOCK_SIZE = 8)
  /\ (4096 <= BLOCK_SIZE -> choose_num_wraps BLOCK_SIZE = 16).
Proof.
  split; [apply choose_num_wraps_table|].
  rewrite choose_num_wraps_table. unfold width_table.
  destruct (Z.ltb_spec BLOCK_SIZE 2048), (Z.ltb_spec BLOCK_SIZE 4096);
    repeat split; intros; lia || reflexivity.
Qed.

Lemma num_wraps_step_table_witness :
  choose_num_wraps 1024 = 4 /\ choose_num_wraps 2048 = 8
  /\ choose_num_wraps 131072 = 16.
Proof.
  split; [|split].
  - apply (num_wraps_step_table 1024). lia.
  - apply (num_wraps_step_table 2048). lia.
  - apply (num_wraps_step_table 131072). lia.
Defined.

(** C3: when the compiler succeeds and neither divisor is zero, the
    wrapper launches [min (NUM_SM * instances_per_unit, n_rows)] instances,
    with [instances_per_unit] the smaller of the register quotient and the
    shared-memory quotient; that number never exceeds [n_rows]. *)
Theorem planner_num_programs (caps : DeviceProperties)
    (compiler : WarmupArgs -> option CompiledKernel)
    (x y : Tensor) (n_rows n_cols : Z) (fp : CompiledKernel) (w : world) :
  shape x = [n_rows; n_cols] ->
  compiler (Reference.planned_args caps x y n_rows n_cols) = Some fp ->
  n_regs fp * warpSize caps * width_table (next_power_of_2 n_cols) <> 0 ->
  metadata_shared fp <> 0 ->
  let grid := Reference.num_programs caps fp
                (width_table (next_power_of_2 n_cols)) n_rows in
  softmax caps compiler x y w =
    (inr y,
     {| heap := Kernel.launch (data_ptr x) (data_ptr y) (stride0 x) (stride0 y)
                  n_rows n_cols (next_power_of_2 n_cols) grid (heap w);
        trace := trace w ++
                 Reference.run_events
                   (Reference.planned_args caps x y n_rows n_cols) grid |})
  /\ grid <= n_rows.
Proof.
  intros Hshape Hc Hr Hs grid. split.
  - apply softmax_planned; assumption.
  - unfold grid, Reference.num_programs. apply Z.le_min_r.
Qed.

Lemma planner_num_programs_witness :
  let x := contiguous 0 1823 781 in
  let y := contiguous 1423763 1823 781 in
  trace (snd (softmax small_sram light_compiler x y (filled NaN))) =
    Reference.run_events (Reference.planned_args small_sram x y 1823 781) 1080
  /\ 1080 <= 1823.
Proof.
  intros x y.
  destruct (planner_num_programs small_sram light_compiler x y 1823 781
              {| n_regs := 32; metadata_shared := 16384 |} (filled NaN))
    as [Hrun Hle]; [reflexivity | reflexivity | vm_compute; discriminate
                   | vm_compute; discriminate |].
  split.
  - rewrite Hrun. reflexivity.
  - lia.
Defined.

(** C4, as amended: with the shape, the compute-unit count and the warp
    width fixed, raising the register file or the shared memory of the
    device never lowers the launched grid, provided the compiler reports
    the same footprint on both devices, that footprint is positive and the
    number of compute units is not negative. *)
Theorem grid_monotone (lo hi : DeviceProperties)
    (compiler : WarmupArgs -> option CompiledKernel)
    (x y : Tensor) (n_rows n_cols : Z) (fp : CompiledKernel) (w : world) :
  shape x = [n_rows; n_cols] ->
  multiprocessor_count lo = multiprocessor_count hi ->
  warpSize lo = warpSize hi ->
  max_num_regs lo <= max_num_regs hi ->
  max_shared_mem lo <= max_shared_mem hi ->
  compiler (Reference.planned_args lo x y n_rows n_cols) = Some fp ->
  compiler (Reference.planned_args hi x y n_rows n_cols) = Some fp ->
  0 <= multiprocessor_count lo ->
  0 < n_regs fp * warpSize lo * width_table (next_power_of_2 n_cols) ->
  0 < metadata_shared fp ->
  exists g_lo g_hi,
    trace (snd (softmax lo compiler x y w)) =
      trace w ++ Reference.run_events
                   (Reference.planned_args lo x y n_rows n_cols) g_lo
    /\ trace (snd (softmax hi compiler x y w)) =
      trace w ++ Reference.run_events
                   (Reference.planned_args hi x y n_rows n_cols) g_hi
    /\ g_lo <= g_hi.
Proof.
  intros Hshape Hsm Hwarp Hregs Hsram Hclo Hchi Hsm0 Hr Hs.
  pose proof (softmax_planned lo compiler x y n_rows n_cols fp w
                Hshape Hclo ltac:(lia) ltac:(lia)) as Hlo.
  pose proof (softmax_planned hi compiler x y n_rows n_cols fp w
                Hshape Hchi ltac:(rewrite <- Hwarp; lia) ltac:(lia)) as Hhi.
  do 2 eexists. rewrite Hlo, Hhi. cbn [snd trace].
  split; [reflexivity|]. split; [reflexivity|].
  unfold Reference.num_programs, Reference.instances_per_unit.
  rewrite <- Hsm, <- Hwarp.
  apply Z.min_le_compat_r. apply Z.mul_le_mono_nonneg_l; [exact Hsm0|].
  apply Z.min_le_compat; apply div_le_numerator; assumption.
Qed.

Lemma grid_monotone_witness :
  let x := contiguous 0 1823 781 in
  let y := contiguous 1423763 1823 781 in
  exists g_lo g_hi,
    trace (snd (softmax small_sram light_compiler x y (filled NaN))) =
      Reference.run_events (Reference.planned_args small_sram x y 1823 781) g_lo
    /\ trace (snd (softmax large_sram light_compiler x y (filled NaN))) =
      Reference.run_events (Reference.planned_args large_sram x y 1823 781) g_hi
    /\ g_lo <= g_hi.
Proof.
  intros x y.
  apply (grid_monotone small_sram large_sram light_compiler x y 1823 781
           {| n_regs := 32; metadata_shared := 16384 |} (filled NaN));
    try reflexivity; vm_compute; congruence.
Defined.

(** C4 fails as stated: the pipeline depth follows the shared memory of
    the device (line 67) and is passed to the compiler, so on the larger
    device the kernel may come back with a larger footprint and the grid
    shrinks, here from 1080 to 108 instances. *)
Lemma more_sram_fewer_programs :
  let x := contiguous 0 1823 781 in
  let y := contiguous 1423763 1823 781 in
  max_shared_mem small_sram <= max_shared_mem large_sram
  /\ exists g_lo g_hi,
      trace (snd (softmax small_sram staged_compiler x y (filled NaN))) =
        Reference.run_events (Reference.planned_args small_sram x y 1823 781) g_lo
      /\ trace (snd (softmax large_sram staged_compiler x y (filled NaN))) =
        Reference.run_events (Reference.planned_args large_sram x y 1823 781) g_hi
      /\ g_hi < g_lo.
Proof.
  intros x y. split; [vm_compute; discriminate|].
  exists 1080, 108. split; [|split; [|lia]].
  - rewrite (softmax_run small_sram staged_compiler x y 1823 781 eq_refl
               {| n_regs := 32; metadata_shared := 16384 |});
      [reflexivity | reflexivity | vm_compute; discriminate
      | vm_compute; discriminate].
  - rewrite (softmax_run large_sram staged_compiler x y 1823 781 eq_refl
               {| n_regs := 32; metadata_shared := 131072 |});
      [reflexivity | reflexivity | vm_compute; discriminate
      | vm_compute; discriminate].
Qed.

(** C2 on a device without room for one instance: a kernel of 255
    registers per thread at 16 warps does not fit the register file of
    65536 registers, the occupancy is zero, and the wrapper raises
    nothing: it ends normally after a launch call with an empty grid. *)
Lemma zero_occupancy_no_error :
  let x := contiguous 0 4 4096 in
  let y := contiguous 16384 4 4096 in
  let fp := {| n_regs := 255; metadata_shared := 1024 |} in
  let r := softmax small_sram heavy_compiler x y (filled NaN) in
  Reference.instances_per_unit small_sram fp
    (width_table (next_power_of_2 4096)) = 0
  /\ fst r = inr y
  /\ In (EvLaunch 0) (trace (snd r)).
Proof.
  intros x y fp r. split; [reflexivity|].
  unfold r.
  rewrite (softmax_run small_sram heavy_compiler x y 4 4096 eq_refl fp);
    [| reflexivity | vm_compute; discriminate | vm_compute; discriminate].
  cbn [fst snd trace]. split; [reflexivity|].
  apply in_or_app. right. unfold Reference.run_events.
  do 3 right. left. reflexivity.
Qed.

(** C5 fails as stated: with no row to process the wrapper does not
    return early; the compile call of lines 71-77 is made all the same. *)
Lemma no_rows_still_compiles :
  let x := contiguous 0 0 781 in
  let y := contiguous 0 0 781 in
  shape x = [0; 781]
  /\ In (EvWarmup (Reference.planned_args small_sram x y 0 781))
        (trace (snd (softmax small_sram light_compiler x y (filled NaN)))).
Proof.
  intros x y. split; [reflexivity|].
  destruct (softmax_compiles small_sram light_compiler x y 0 781 eq_refl
              (filled NaN)) as (rest & ->).
  apply in_or_app. right. right. left. reflexivity.
Qed.

(** C8 at a matrix without columns: the block size handed to the compiler
    is 0, which is no power of two; the smallest power of two that is at
    least 0 is 1. *)
Theorem block_size_no_columns :
  let x := contiguous 0 3 0 in
  let y := contiguous 0 3 0 in
  let args := Reference.planned_args small_sram x y 3 0 in
  In (EvWarmup args)
     (trace (snd (softmax small_sram light_compiler x y (filled NaN))))
  /\ w_BLOCK_SIZE args = 0
  /\ ~ is_pow2 (w_BLOCK_SIZE args)
  /\ smallest_pow2_geq 0 1.
Proof.
  intros x y args. split; [|split; [|split]].
  - destruct (softmax_compiles small_sram light_compiler x y 3 0 eq_refl
                (filled NaN)) as (rest & ->).
    apply in_or_app. right. right. left. reflexivity.
  - reflexivity.
  - change (w_BLOCK_SIZE args) with 0. apply not_is_pow2_0.
  - split; [exists 0; split; [lia | reflexivity]|]. split; [lia|].
    intros q (k & Hk & ->) _. pose proof (Z.pow_pos_nonneg 2 k). lia.
Qed.

(** For a matrix with at least one column (and at most [2^64]) the block
    size handed to the compiler is the smallest power of two that is at
    least [n_cols]. *)
Lemma block_size_smallest (caps : DeviceProperties) (x y : Tensor)
    (n_rows n_cols : Z) :
  1 <= n_cols <= 2 ^ 64 ->
  smallest_pow2_geq n_cols
    (w_BLOCK_SIZE (Reference.planned_args caps x y n_rows n_cols)).
Proof. intros H. apply next_power_of_2_smallest, H. Qed.

(** ** The rows of an instance *)

Section Rows.

Lemma In_tl_arange lo hi c : In c (tl_arange lo hi) <-> lo <= c < hi.
Proof.
  unfold tl_arange. rewrite in_map_iff. split.
  - intros (k & <- & Hk). apply in_seq in Hk. lia.
  - intros Hc. exists (Z.to_nat (c - lo)). split; [lia|].
    apply in_seq. lia.
Qed.

Lemma NoDup_tl_arange lo hi : NoDup (tl_arange lo hi).
Proof.
  unfold tl_arange. apply NoDup_map_NoDup_ForallPairs.
  - intros a b _ _ H. lia.
  - apply seq_NoDup.
Qed.

(** Python's length of a range: [k] is below it exactly when the
    [k]-th element is below [stop]. *)
Lemma range_length_spec start stop step k :
  0 < step -> 0 <= k ->
  (k < (stop - start + step - 1) / step <-> start + k * step < stop).
Proof.
  intros Hs Hk.
  pose proof (Z.mul_div_le (stop - start + step - 1) step Hs) as Hlo.
  pose proof (Z.mul_succ_div_gt (stop - start + step - 1) step Hs) as Hhi.
  split; intros H; nia.
Qed.

Lemma In_tl_range start stop step r :
  0 < step ->
  (In r (tl_range start stop step) <->
   exists k, 0 <= k /\ r = start + k * step /\ r < stop).
Proof.
  intros Hs. unfold tl_range.
  destruct (Z.ltb_spec 0 step) as [_|]; [|lia].
  rewrite in_map_iff. split.
  - intros (k & <- & Hk). apply in_seq in Hk.
    exists (Z.of_nat k). split; [lia|]. split; [reflexivity|].
    apply range_length_spec; lia.
  - intros (k & Hk & -> & Hlt). exists (Z.to_nat k).
    split; [rewrite Z2Nat.id by lia; reflexivity|].
    apply in_seq. apply range_length_spec in Hlt; lia.
Qed.

Lemma In_rows_of n_rows pid np r :
  0 <= pid < np ->
  (In r (rows_of n_rows pid np) <-> 0 <= r < n_rows /\ r mod np = pid).
Proof.
  intros Hp. unfold rows_of. rewrite In_tl_range by lia. split.
  - intros (k & Hk & -> & Hlt). split; [nia|].
    rewrite Z.mod_add by lia. apply Z.mod_small; lia.
  - intros (Hr & Hm). exists (r / np).
    pose proof (Z.div_mod r np ltac:(lia)) as Hdm.
    pose proof (Z.div_pos r np ltac:(lia) ltac:(lia)).
    split; [lia|]. split; [nia | lia].
Qed.

Lemma tl_range_sorted start stop step :
  Reference.strictly_increasing (tl_range start stop step).
Proof.
  unfold Reference.strictly_increasing, tl_range.
  destruct (Z.ltb_spec 0 step) as [Hs|]; [|constructor].
  generalize (Z.to_nat ((stop - start + step - 1) / step)) as n.
  generalize 0%nat as a.
  intros a n. revert a.
  induction n as [|n IH]; intros a; cbn [seq map]; constructor.
  - apply IH.
  - apply Forall_forall. intros v Hv. apply in_map_iff in Hv.
    destruct Hv as (k & <- & Hk). apply in_seq in Hk. nia.
Qed.

Lemma strictly_increasing_NoDup l :
  Reference.strictly_increasing l -> NoDup l.
Proof.
  induction 1 as [|a l Hs IH Hall]; constructor; [|exact IH].
  intros Hin. rewrite Forall_forall in Hall. specialize (Hall a Hin). lia.
Qed.

Lemma NoDup_flat_map_disjoint (f : Z -> list Z) (l : list Z) :
  NoDup l ->
  (forall p, In p l -> NoDup (f p)) ->
  (forall p q r, In p l -> In q l -> p <> q -> In r (f p) -> ~ In r (f q)) ->
  NoDup (flat_map f l).
Proof.
  induction 1 as [|p l Hp Hnd IH]; intros Hin Hdis; cbn [flat_map].
  - constructor.
  - apply NoDup_app.
    + apply Hin. now left.
    + apply IH.
      * intros q Hq. apply Hin. now right.
      * intros q1 q2 r H1 H2. apply Hdis; now right.
    + intros r Hr Hr'. apply in_flat_map in Hr'.
      destruct Hr' as (q & Hq & Hrq).
      apply (Hdis p q r); [now left | now right | | exact Hr | exact Hrq].
      intros ->. contradiction.
Qed.

Lemma In_schedule n_rows np r :
  In r (Reference.schedule n_rows np) <-> 0 < np /\ 0 <= r < n_rows.
Proof.
  unfold Reference.schedule. rewrite in_flat_map. split.
  - intros (pid & Hp & Hr). apply In_tl_arange in Hp.
    apply In_rows_of in Hr; lia.
  - intros (Hnp & Hr). exists (r mod np).
    pose proof (Z.mod_pos_bound r np Hnp).
    split; [apply In_tl_arange; lia|].
    apply In_rows_of; [lia|]. split; [exact Hr | reflexivity].
Qed.

Lemma NoDup_schedule n_rows np : NoDup (Reference.schedule n_rows np).
Proof.
  apply NoDup_flat_map_disjoint.
  - apply NoDup_tl_arange.
  - intros p _. apply strictly_increasing_NoDup, tl_range_sorted.
  - intros p q r Hp Hq Hne Hrp Hrq.
    apply In_tl_arange in Hp, Hq.
    apply In_rows_of in Hrp, Hrq; lia.
Qed.

End Rows.

(** C7: with at least one instance, the rows [i, i+n, i+2n, ...] below
    [n_rows] of the instances [i < n] partition the row indices: every
    row belongs to exactly one instance, each instance walks its rows in
    strictly increasing order within [0, n_rows), different instances
    share no row, and the launch as a whole visits every row once. *)
Theorem rows_partition (n_rows num_programs : Z) :
  1 <= num_programs ->
  (forall r, 0 <= r < n_rows ->
     exists pid, 0 <= pid < num_programs
       /\ In r (rows_of n_rows pid num_programs)
       /\ forall pid', 0 <= pid' < num_programs ->
            In r (rows_of n_rows pid' num_programs) -> pid' = pid)
  /\ (forall pid, 0 <= pid < num_programs ->
        Reference.strictly_increasing (rows_of n_rows pid num_programs)
        /\ forall r, In r (rows_of n_rows pid num_programs) -> 0 <= r < n_rows)
  /\ (forall p q r, 0 <= p < num_programs -> 0 <= q < num_programs -> p <> q ->
        In r (rows_of n_rows p num_programs) ->
        ~ In r (rows_of n_rows q num_programs))
  /\ Permutation (Reference.schedule n_rows num_programs) (tl_arange 0 n_rows).
Proof.
  intros Hnp. split; [|split; [|split]].
  - intros r Hr. exists (r mod num_programs).
    pose proof (Z.mod_pos_bound r num_programs ltac:(lia)) as Hb.
    split; [lia|]. split.
    + apply In_rows_of; [lia|]. split; [exact Hr | reflexivity].
    + intros pid' Hp' Hin. apply In_rows_of in Hin; [|exact Hp']. lia.
  - intros pid Hp. split; [apply tl_range_sorted|].
    intros r Hin. apply In_rows_of in Hin; [|exact Hp]. lia.
  - intros p q r Hp Hq Hne Hrp Hrq.
    apply In_rows_of in Hrp, Hrq; lia.
  - apply NoDup_Permutation.
    + apply NoDup_schedule.
    + apply NoDup_tl_arange.
    + intros r. rewrite In_schedule, In_tl_arange. lia.
Qed.

Lemma rows_partition_witness :
  Permutation (Reference.schedule 10 3) (tl_arange 0 10)
  /\ rows_of 10 1 3 = [1; 4; 7].
Proof.
  split; [|reflexivity].
  apply (rows_partition 10 3). lia.
Defined.

(** ** Masked loads and stores, lane by lane *)

Section Lanes.

Variables (pf : Z -> Z) (bf : Z -> bool) (vf : Z -> xreal).

Lemma tl_load_map (m : mem) (cols : list Z) (other : xreal) :
  tl_load m (map pf cols) (map bf cols) other =
  map (fun c => if bf c then m (pf c) else other) cols.
Proof.
  unfold tl_load. induction cols as [|c cols IH]; cbn; [reflexivity|].
  now f_equal.
Qed.

(** A store leaves alone every address no enabled lane points to. *)
Lemma tl_store_frame (cols : list Z) (vals : list xreal) (m : mem) (a : Z) :
  (forall c, In c cols -> bf c = true -> pf c <> a) ->
  tl_store m (map pf cols) vals (map bf cols) a = m a.
Proof.
  revert vals m. induction cols as [|c cols IH]; intros vals m Hfree.
  - reflexivity.
  - destruct vals as [|v vals]; [reflexivity|]. cbn [map tl_store].
    rewrite IH by (intros c' Hc'; apply Hfree; now right).
    destruct (bf c) eqn:Hb; [|reflexivity].
    unfold upd. destruct (Z.eqb_spec a (pf c)) as [->|]; [|reflexivity].
    exfalso. apply (Hfree c); [now left | exact Hb | reflexivity].
Qed.

(** An enabled lane's value lands at its address when the lanes point
    to different addresses. *)
Lemma tl_store_hit (cols : list Z) (m : mem) (c : Z) :
  NoDup cols ->
  (forall c1 c2, In c1 cols -> In c2 cols -> pf c1 = pf c2 -> c1 = c2) ->
  In c cols -> bf c = true ->
  tl_store m (map pf cols) (map vf cols) (map bf cols) (pf c) = vf c.
Proof.
  intros Hnd. revert m. induction Hnd as [|c0 cols Hc0 Hnd IH];
    intros m Hinj Hin Hb; [destruct Hin|].
  cbn [map tl_store]. destruct Hin as [->|Hin].
  - rewrite Hb. rewrite tl_store_frame.
    + unfold upd. now rewrite Z.eqb_refl.
    + intros c' Hc' _ Heq. apply Hinj in Heq; [|now right|now left].
      subst c'. contradiction.
  - apply IH; [|exact Hin|exact Hb].
    intros c1 c2 H1 H2. apply Hinj; now right.
Qed.

End Lanes.

(** ** Reductions over a padded row *)

Section Reductions.

Local Open Scope R_scope.

Lemma fold_xmax_Fin (l : list R) (v : R) :
  fold_left xmax (map Fin l) (Fin v) = Fin (fold_left Rmax l v).
Proof. revert v. induction l as [|u l IH]; intros v; cbn; [reflexivity|apply IH]. Qed.

Lemma fold_xmax_padding (k : nat) (v : R) :
  fold_left xmax (repeat NInf k) (Fin v) = Fin v.
Proof. induction k as [|k IH]; cbn; [reflexivity|exact IH]. Qed.

Lemma fold_xadd_Fin (l : list R) (v : R) :
  fold_left xadd (map Fin l) (Fin v) = Fin (fold_left Rplus l v).
Proof. revert v. induction l as [|u l IH]; intros v; cbn; [reflexivity|apply IH]. Qed.

Lemma fold_xadd_zeros (k : nat) (v : R) :
  fold_left xadd (repeat (Fin 0) k) (Fin v) = Fin v.
Proof.
  induction k as [|k IH]; cbn; [reflexivity|].
  rewrite Rplus_0_r. exact IH.
Qed.

(** The padding lanes do not move the maximum of a non-empty row. *)
Lemma tl_max_padded (l : list R) (k : nat) :
  l <> [] ->
  tl_max (map Fin l ++ repeat NInf k) = Fin (Reference.row_max l).
Proof.
  destruct l as [|v l]; [congruence|]. intros _.
  unfold tl_max, reduce. cbn [map app Reference.row_max].
  now rewrite fold_left_app, fold_xmax_Fin, fold_xmax_padding.
Qed.

(** The padding lanes add nothing to the sum. *)
Lemma tl_sum_padded (l : list R) (k : nat) :
  l <> [] ->
  tl_sum (map Fin l ++ repeat (Fin 0) k) = Fin (Reference.row_sum l).
Proof.
  destruct l as [|v l]; [congruence|]. intros _.
  unfold tl_sum, reduce, Reference.row_sum. cbn [map app fold_left].
  now rewrite fold_left_app, fold_xadd_Fin, fold_xadd_zeros, Rplus_0_l.
Qed.

Lemma fold_Rplus_pos (l : list R) (a : R) :
  Forall (fun v => 0 < v) l -> 0 < a -> 0 < fold_left Rplus l a.
Proof.
  intros Hall. revert a. induction Hall as [|v l Hv Hall IH]; intros a Ha.
  - exact Ha.
  - cbn. apply IH. lra.
Qed.

Lemma row_sum_exps_pos (xr : Z -> R) (n_cols : Z) :
  (1 <= n_cols)%Z -> 0 < Reference.row_sum (Reference.row_exps xr n_cols).
Proof.
  intros Hn. unfold Reference.row_sum, Reference.row_exps.
  set (M := Reference.row_max _). unfold Reference.row_values, tl_arange.
  replace (Z.to_nat (n_cols - 0)) with (S (Z.to_nat (n_cols - 1))) by lia.
  cbn [seq map fold_left]. apply fold_Rplus_pos.
  - apply Forall_forall. intros v Hv. apply in_map_iff in Hv.
    destruct Hv as (u & <- & _). apply exp_pos.
  - rewrite Rplus_0_l. apply exp_pos.
Qed.

End Reductions.

(** ** One row of the kernel *)

Section RowFacts.

Variables (input_ptr output_ptr input_row_stride output_row_stride : Z).
Variables (n_cols BLOCK_SIZE : Z).

Local Abbreviation load :=
  (load_row input_ptr input_row_stride n_cols BLOCK_SIZE).
Local Abbreviation step :=
  (softmax_row input_ptr output_ptr input_row_stride output_row_stride
     n_cols BLOCK_SIZE).

(** What lane [c] holds after the masked load. *)
Let lane (m : mem) (row_idx c : Z) : xreal :=
  if c <? n_cols then m (input_ptr + row_idx * input_row_stride + c) else NInf.

Lemma map_seq_from (A : Type) (f : nat -> A) (a len : nat) :
  map f (seq a len) = map (fun k => f (a + k)%nat) (seq 0 len).
Proof.
  revert f a. induction len as [|len IH]; intros f a; [reflexivity|].
  cbn [seq map]. f_equal; [f_equal; lia|].
  rewrite (IH f (S a)), (IH (fun k => f (a + k)%nat) 1%nat).
  apply map_ext. intros k. f_equal. lia.
Qed.

Lemma tl_arange_split (n hi : Z) :
  0 <= n <= hi -> tl_arange 0 hi = tl_arange 0 n ++ tl_arange n hi.
Proof.
  intros Hn. unfold tl_arange.
  replace (Z.to_nat (hi - 0)) with (Z.to_nat (n - 0) + Z.to_nat (hi - n))%nat
    by lia.
  rewrite seq_app, map_app. f_equal.
  rewrite map_seq_from. apply map_ext. intros k. lia.
Qed.

Lemma length_tl_arange lo hi : length (tl_arange lo hi) = Z.to_nat (hi - lo).
Proof. unfold tl_arange. now rewrite length_map, length_seq. Qed.

Lemma load_row_lanes (m : mem) (row_idx : Z) :
  load m row_idx = map (lane m row_idx) (tl_arange 0 BLOCK_SIZE).
Proof.
  unfold load_row, input_ptrs, mask, col_offsets. cbv zeta.
  now rewrite tl_load_map.
Qed.

(** The loaded row depends on the heap at the first [n_cols] entries
    of the row and nowhere else. *)
Lemma load_row_reads (m m' : mem) (row_idx : Z) :
  (forall c, 0 <= c < n_cols ->
     m' (input_ptr + row_idx * input_row_stride + c) =
     m (input_ptr + row_idx * input_row_stride + c)) ->
  load m' row_idx = load m row_idx.
Proof.
  intros Hsame. rewrite !load_row_lanes. apply map_ext_in.
  intros c Hc. apply In_tl_arange in Hc. unfold lane.
  destruct (Z.ltb_spec c n_cols); [apply Hsame; lia | reflexivity].
Qed.

(** The store of one row leaves alone every address that is not one
    of the first [n_cols] entries of that output row. *)
Lemma softmax_row_frame (m : mem) (row_idx a : Z) :
  (forall c, 0 <= c < n_cols -> c < BLOCK_SIZE ->
     a <> output_ptr + row_idx * output_row_stride + c) ->
  step m row_idx a = m a.
Proof.
  intros Hfree. unfold softmax_row, output_ptrs, mask, col_offsets.
  cbv zeta. apply tl_store_frame. intros c Hc Hb Heq.
  apply In_tl_arange in Hc. apply Z.ltb_lt in Hb.
  apply (Hfree c); lia.
Qed.

Lemma softmax_output_map (row : list xreal) :
  softmax_output row =
  map (fun v => xdiv (xexp (xsub v (tl_max row))) (denominator row)) row.
Proof. unfold softmax_output, numerator. cbv zeta. now rewrite !map_map. Qed.

Section FiniteRow.

Variables (m : mem) (row_idx : Z) (xr : Z -> R).
Hypothesis Hcols : 1 <= n_cols <= BLOCK_SIZE.
Hypothesis Hrow : forall c, 0 <= c < n_cols ->
  m (input_ptr + row_idx * input_row_stride + c) = Fin (xr c).

Let padding := Z.to_nat (BLOCK_SIZE - n_cols).

Lemma row_values_nonempty : Reference.row_values xr n_cols <> [].
Proof.
  unfold Reference.row_values, tl_arange.
  replace (Z.to_nat (n_cols - 0)) with (S (Z.to_nat (n_cols - 1))) by lia.
  discriminate.
Qed.

Lemma load_row_padded :
  load m row_idx =
  map Fin (Reference.row_values xr n_cols) ++ repeat NInf padding.
Proof.
  rewrite load_row_lanes, (tl_arange_split n_cols BLOCK_SIZE) by lia.
  rewrite map_app. f_equal.
  - unfold Reference.row_values. rewrite map_map. apply map_ext_in.
    intros c Hc. apply In_tl_arange in Hc. unfold lane.
    destruct (Z.ltb_spec c n_cols); [apply Hrow; lia | lia].
  - rewrite <- (length_tl_arange n_cols BLOCK_SIZE : _ = padding).
    rewrite <- map_const. apply map_ext_in.
    intros c Hc. apply In_tl_arange in Hc. unfold lane.
    destruct (Z.ltb_spec c n_cols); [lia | reflexivity].
Qed.

Lemma row_max_padded :
  tl_max (load m row_idx) =
  Fin (Reference.row_max (Reference.row_values xr n_cols)).
Proof.
  rewrite load_row_padded. apply tl_max_padded, row_values_nonempty.
Qed.

Lemma numerator_padded :
  numerator (load m row_idx) =
  map Fin (Reference.row_exps xr n_cols) ++ repeat (Fin 0%R) padding.
Proof.
  unfold numerator. cbv zeta. rewrite row_max_padded, load_row_padded.
  rewrite !map_app, !map_map, !map_repeat.
  unfold Reference.row_exps. rewrite map_map. reflexivity.
Qed.

Lemma denominator_padded :
  denominator (load m row_idx) =
  Fin (Reference.row_sum (Reference.row_exps xr n_cols)).
Proof.
  unfold denominator. rewrite numerator_padded. apply tl_sum_padded.
  unfold Reference.row_exps. intros H. apply map_eq_nil in H.
  now apply row_values_nonempty.
Qed.

(** The value the kernel stores at entry [c] of the row. *)
Lemma softmax_row_value (c : Z) :
  0 <= c < n_cols ->
  step m row_idx (output_ptr + row_idx * output_row_stride + c) =
  Fin (Reference.softmax_value xr n_cols c).
Proof.
  intros Hc. unfold softmax_row. cbv zeta. rewrite softmax_output_map.
  pose proof row_max_padded as Hmax. pose proof denominator_padded as Hden.
  set (mx := tl_max (load m row_idx)) in *.
  set (den := denominator (load m row_idx)) in *.
  rewrite load_row_lanes, map_map.
  unfold output_ptrs, mask, col_offsets. cbv zeta.
  pose proof (tl_store_hit
                (fun c => output_ptr + row_idx * output_row_stride + c)
                (fun c => c <? n_cols)
                (fun c => xdiv (xexp (xsub (lane m row_idx c) mx)) den)
                (tl_arange 0 BLOCK_SIZE) m c (NoDup_tl_arange _ _)) as Hhit.
  cbv beta in Hhit. rewrite Hhit; clear Hhit.
  - unfold lane. destruct (Z.ltb_spec c n_cols); [|lia].
    rewrite Hrow, Hmax, Hden by lia. cbn [xsub xexp xdiv].
    destruct (Req_EM_T _ 0) as [Hz|_]; [|reflexivity].
    pose proof (row_sum_exps_pos xr n_cols ltac:(lia)). lra.
  - intros c1 c2 _ _ Heq. lia.
  - apply In_tl_arange. lia.
  - apply Z.ltb_lt. lia.
Qed.

End FiniteRow.

End RowFacts.

(** ** A whole launch *)

Section LaunchFacts.

Variables (input_ptr output_ptr input_row_stride output_row_stride : Z).
Variables (n_rows n_cols BLOCK_SIZE : Z).

Local Abbreviation step :=
  (softmax_row input_ptr output_ptr input_row_stride output_row_stride
     n_cols BLOCK_SIZE).

Lemma fold_rows_frame (rows : list Z) (m : mem) (a : Z) :
  (forall r c, In r rows -> 0 <= c < n_cols ->
     a <> output_ptr + r * output_row_stride + c) ->
  fold_left step rows m a = m a.
Proof.
  revert m. induction rows as [|r rows IH]; intros m Hfree; [reflexivity|].
  cbn [fold_left]. rewrite IH by (intros r' c Hr'; apply Hfree; now right).
  apply softmax_row_frame. intros c Hc _. apply Hfree; [now left | exact Hc].
Qed.

Lemma launch_schedule (num_programs : Z) (m : mem) :
  Kernel.launch input_ptr output_ptr input_row_stride output_row_stride
    n_rows n_cols BLOCK_SIZE num_programs m =
  fold_left step (Reference.schedule n_rows num_programs) m.
Proof.
  unfold Kernel.launch, Reference.schedule, softmax_kernel.
  generalize (tl_arange 0 num_programs) as pids. intros pids. revert m.
  induction pids as [|pid pids IH]; intros m; [reflexivity|].
  cbn [fold_left flat_map]. now rewrite fold_left_app, IH.
Qed.

Section Correct.

Variable X : Z -> Z -> R.
Hypothesis Hcols : 1 <= n_cols <= BLOCK_SIZE.
Hypothesis Hpitch : n_cols <= output_row_stride.
Hypothesis Hapart : forall r c r' c',
  0 <= r < n_rows -> 0 <= c < n_cols ->
  0 <= r' < n_rows -> 0 <= c' < n_cols ->
  input_ptr + r * input_row_stride + c <>
  output_ptr + r' * output_row_stride + c'.

(** The heap holds [X] at the input. *)
Let loaded (m : mem) : Prop :=
  forall r c, 0 <= r < n_rows -> 0 <= c < n_cols ->
    m (input_ptr + r * input_row_stride + c) = Fin (X r c).

Lemma softmax_row_keeps_input (m : mem) (row_idx : Z) :
  0 <= row_idx < n_rows -> loaded m -> loaded (step m row_idx).
Proof.
  intros Hr Hm r c Hr' Hc. rewrite softmax_row_frame; [apply Hm; assumption|].
  intros c' Hc' _. apply Hapart; assumption.
Qed.

(** After any sequence of row steps, each visited row holds its
    softmax. *)
Lemma fold_rows_values (rows : list Z) (m : mem) :
  (forall r, In r rows -> 0 <= r < n_rows) ->
  loaded m ->
  forall r c, In r rows -> 0 <= c < n_cols ->
    fold_left step rows m (output_ptr + r * output_row_stride + c) =
    Fin (Reference.softmax_entry X n_cols r c).
Proof.
  revert m. induction rows as [|r0 rows IH]; intros m Hrange Hm r c Hin Hc;
    [destruct Hin|].
  cbn [fold_left].
  assert (Hr0 : 0 <= r0 < n_rows) by (apply Hrange; now left).
  destruct (in_dec Z.eq_dec r rows) as [Hlater|Hlast].
  - apply IH; [| apply softmax_row_keeps_input | |]; try assumption.
    intros r' Hr'. apply Hrange. now right.
  - destruct Hin as [->|Hin]; [|contradiction].
    rewrite fold_rows_frame.
    + apply (softmax_row_value _ _ _ _ _ _ m r (X r)); try assumption.
      intros c' Hc'. apply Hm; assumption.
    + intros r' c' Hr' Hc' Heq.
      assert (r' <> r) by (intros ->; contradiction).
      nia.
Qed.

End Correct.

End LaunchFacts.

(** C10: no kernel instance, and so no launch, writes a padding element
    of the output: with a row stride above [n_cols], the addresses
    [output_ptr + r * stride + c] for [n_cols <= c < stride] keep the value
    they had before the launch. *)
Theorem padding_untouched
    (input_ptr output_ptr input_row_stride output_row_stride : Z)
    (n_rows n_cols BLOCK_SIZE num_programs : Z) (m : mem) (r c : Z) :
  n_cols <= c < output_row_stride ->
  (forall pid,
     softmax_kernel input_ptr output_ptr input_row_stride output_row_stride
       n_rows n_cols BLOCK_SIZE pid num_programs m
       (output_ptr + r * output_row_stride + c) =
     m (output_ptr + r * output_row_stride + c))
  /\ Kernel.launch input_ptr output_ptr input_row_stride output_row_stride
       n_rows n_cols BLOCK_SIZE num_programs m
       (output_ptr + r * output_row_stride + c) =
     m (output_ptr + r * output_row_stride + c).
Proof.
  intros Hc. split.
  - intros pid. unfold softmax_kernel. apply fold_rows_frame.
    intros r' c' _ Hc' Heq.
    assert (Hz : (r - r') * output_row_stride = c' - c) by lia.
    destruct (Z_le_gt_dec 0 (r - r')); nia.
  - rewrite launch_schedule. apply fold_rows_frame.
    intros r' c' _ Hc' Heq.
    assert (Hz : (r - r') * output_row_stride = c' - c) by lia.
    destruct (Z_le_gt_dec 0 (r - r')); nia.
Qed.

Lemma padding_untouched_witness :
  Kernel.launch 0 100 5 5 2 3 4 2 (heap (filled NaN)) (100 + 1 * 5 + 3) = NaN.
Proof.
  rewrite (proj2 (padding_untouched 0 100 5 5 2 3 4 2 (heap (filled NaN)) 1 3
                    ltac:(lia))).
  reflexivity.
Defined.

(** C6: for a row of [n_cols] real numbers loaded in a block of
    [BLOCK_SIZE >= n_cols] lanes, the lanes from [n_cols] on are loaded as
    minus infinity and exponentiate to zero; the row maximum and the
    normalising sum are those of the first [n_cols] entries alone; the entries stored are the softmax
    of the first [n_cols] entries; no other address is written, and the
    loaded row depends on no other address of the heap. *)
Theorem masking_correct
    (input_ptr output_ptr input_row_stride output_row_stride : Z)
    (n_cols BLOCK_SIZE : Z) (m : mem) (row_idx : Z) (xr : Z -> R) :
  1 <= n_cols <= BLOCK_SIZE ->
  (forall c, 0 <= c < n_cols ->
     m (input_ptr + row_idx * input_row_stride + c) = Fin (xr c)) ->
  let row := load_row input_ptr input_row_stride n_cols BLOCK_SIZE m row_idx in
  let after := softmax_row input_ptr output_ptr input_row_stride
                 output_row_stride n_cols BLOCK_SIZE m row_idx in
  row = map Fin (Reference.row_values xr n_cols)
        ++ repeat NInf (Z.to_nat (BLOCK_SIZE - n_cols))
  /\ tl_max row = Fin (Reference.row_max (Reference.row_values xr n_cols))
  /\ numerator row = map Fin (Reference.row_exps xr n_cols)
                     ++ repeat (Fin 0%R) (Z.to_nat (BLOCK_SIZE - n_cols))
  /\ denominator row = Fin (Reference.row_sum (Reference.row_exps xr n_cols))
  /\ (forall c, 0 <= c < n_cols ->
        after (output_ptr + row_idx * output_row_stride + c) =
        Fin (Reference.softmax_value xr n_cols c))
  /\ (forall a,
        (forall c, 0 <= c < n_cols ->
           a <> output_ptr + row_idx * output_row_stride + c) ->
        after a = m a)
  /\ (forall m' : mem,
        (forall c, 0 <= c < n_cols ->
           m' (input_ptr + row_idx * input_row_stride + c) =
           m (input_ptr + row_idx * input_row_stride + c)) ->
        load_row input_ptr input_row_stride n_cols BLOCK_SIZE m' row_idx = row).
Proof.
  intros Hcols Hrow row after. unfold row, after.
  split; [apply load_row_padded; assumption|].
  split; [apply row_max_padded; assumption|].
  split; [apply numerator_padded; assumption|].
  split; [apply denominator_padded; assumption|].
  split; [intros c Hc; apply softmax_row_value; assumption|].
  split.
  - intros a Ha. apply softmax_row_frame. intros c Hc _. apply Ha, Hc.
  - intros m' Hsame. apply load_row_reads, Hsame.
Qed.

Lemma masking_correct_witness :
  load_row 0 3 3 4 (heap (filled (Fin 0%R))) 1 =
    map Fin (Reference.row_values (fun _ => 0%R) 3) ++ repeat NInf 1.
Proof.
  pose proof (masking_correct 0 100 3 3 3 4 (heap (filled (Fin 0%R))) 1
                (fun _ => 0%R) ltac:(lia) (fun _ _ => eq_refl)) as H.
  cbv zeta in H. exact (proj1 H).
Defined.

(** C1 on a device without room for one instance: the register file
    cannot hold one instance of the compiled kernel, the grid is empty, no
    row is processed, and the wrapper returns the output buffer as it was
    allocated; its first entry is not the softmax of the input. *)
Lemma zero_occupancy_garbage :
  let x := contiguous 0 4 4096 in
  let y := contiguous 16384 4 4096 in
  let w := zeros_below 16384 in
  let r := softmax small_sram heavy_compiler x y w in
  Reference.holds (heap w) x 4 4096 zero_matrix
  /\ Reference.disjoint x y 4 4096
  /\ fst r = inr y
  /\ heap (snd r) (data_ptr y + 0 * stride0 y + 0) <>
       Fin (Reference.softmax_entry zero_matrix 4096 0 0).
Proof.
  intros x y w r. split; [|split].
  - intros r0 c Hr Hc. unfold w, x, zeros_below, stride0, contiguous.
    cbn [heap data_ptr stride nth].
    destruct (Z.ltb_spec (0 + r0 * 4096 + c) 16384); [reflexivity | lia].
  - intros a (r1 & c1 & Hr1 & Hc1 & ->) (r2 & c2 & Hr2 & Hc2 & Heq).
    unfold x, y, stride0, contiguous in Heq.
    cbn [data_ptr stride nth] in Heq. lia.
  - unfold r.
    rewrite (softmax_planned small_sram heavy_compiler x y 4 4096
               {| n_regs := 255; metadata_shared := 1024 |} w eq_refl eq_refl);
      [| vm_compute; discriminate | vm_compute; discriminate].
    cbn [fst snd heap]. split; [reflexivity|].
    rewrite launch_no_instance by (vm_compute; discriminate).
    cbn. discriminate.
Qed.


(** * Further properties of the wrapper and of the kernel *)

(** ** Every way the wrapper can end *)

Section WrapperOutcomes.

Variable caps : DeviceProperties.
Variable compiler : WarmupArgs -> option CompiledKernel.
Variables (x y : Tensor).

Lemma softmax_not_rank2 (w : world) :
  length (shape x) <> 2%nat ->
  softmax caps compiler x y w = (inl AssertionError, w).
Proof.
  intros Hlen. unfold softmax.
  destruct (shape x) as [|a [|b [|c l]]]; try reflexivity.
  cbn in Hlen. congruence.
Qed.

Lemma softmax_compile_failure (n_rows n_cols : Z) (w : world) :
  shape x = [n_rows; n_cols] ->
  compiler (Reference.planned_args caps x y n_rows n_cols) = None ->
  softmax caps compiler x y w =
    (inl CompilationError,
     {| heap := heap w;
        trace := trace w ++
                 [EvEmptyLike;
                  EvWarmup (Reference.planned_args caps x y n_rows n_cols)] |}).
Proof.
  intros Hshape Hc. unfold softmax. rewrite Hshape.
  unfold bind, warmup, bind, emit, raise; cbn [heap trace fst snd].
  change (compiler _)
    with (compiler (Reference.planned_args caps x y n_rows n_cols)).
  rewrite Hc. now rewrite <- app_assoc.
Qed.

Lemma softmax_outcome (w : world) :
  Reference.outcome caps x y w (softmax caps compiler x y w).
Proof.
  destruct (shape x) as [|n_rows [|n_cols [|c l]]] eqn:Hshape;
    try (rewrite softmax_not_rank2 by (rewrite Hshape; cbn; congruence);
         apply Reference.Rejected; rewrite Hshape; cbn; congruence).
  destruct (compiler (Reference.planned_args caps x y n_rows n_cols))
    as [k|] eqn:Hc.
  - destruct (Z.eq_dec (n_regs k * warpSize caps
                        * choose_num_wraps (next_power_of_2 n_cols)) 0)
      as [Hr|Hr].
    + rewrite (softmax_zero_division caps compiler x y n_rows n_cols Hshape k w
                 Hc (or_introl Hr)).
      now apply Reference.DividedByZero.
    + destruct (Z.eq_dec (metadata_shared k) 0) as [Hs|Hs].
      * rewrite (softmax_zero_division caps compiler x y n_rows n_cols Hshape
                   k w Hc (or_intror Hs)).
        now apply Reference.DividedByZero.
      * rewrite (softmax_run caps compiler x y n_rows n_cols Hshape k w
                   Hc Hr Hs).
        apply Reference.Launched; [exact Hshape | apply Z.le_min_r].
  - rewrite (softmax_compile_failure n_rows n_cols w Hshape Hc).
    now apply Reference.NotCompiled.
Qed.

End WrapperOutcomes.

(** A launch changes nothing but entries of the output tensor. *)
Lemma launch_frame (x y : Tensor) (n_rows n_cols bs grid : Z) (m : mem) (a : Z) :
  ~ Reference.cell_of y n_rows n_cols a ->
  Kernel.launch (data_ptr x) (data_ptr y) (stride0 x) (stride0 y)
    n_rows n_cols bs grid m a = m a.
Proof.
  intros Hout. rewrite launch_schedule. apply fold_rows_frame.
  intros r c Hr Hc ->. apply Hout. apply In_schedule in Hr.
  exists r, c. repeat split; lia.
Qed.

(** C5, as amended: on a matrix without rows the wrapper does not
    return early.  Whatever the outcome, it makes the compile call, none
    of the calls it makes is a device capability query, and it leaves the
    memory as it was; when the compilation succeeds and no divisor is
    zero, it issues a launch whose grid has no instance and returns
    [y]. *)
Theorem no_rows_run (caps : DeviceProperties)
    (compiler : WarmupArgs -> option CompiledKernel)
    (x y : Tensor) (n_cols : Z) (w : world) :
  shape x = [0; n_cols] ->
  let args := Reference.planned_args caps x y 0 n_cols in
  let r := softmax caps compiler x y w in
  heap (snd r) = heap w
  /\ (exists rest,
        trace (snd r) = trace w ++ EvEmptyLike :: EvWarmup args :: rest
        /\ ~ In EvGetDeviceProperties rest)
  /\ (forall fp,
        compiler args = Some fp ->
        n_regs fp * warpSize caps * width_table (next_power_of_2 n_cols) <> 0 ->
        metadata_shared fp <> 0 ->
        exists grid,
          grid <= 0
          /\ r = (inr y,
                  {| heap := heap w;
                     trace := trace w ++ Reference.run_events args grid |})).
Proof.
  intros Hshape args r. unfold r, args.
  split; [|split].
  - destruct (softmax_outcome caps compiler x y w)
      as [| | |n_rows n_cols' grid Hs Hg]; cbn [snd heap]; try reflexivity.
    rewrite Hshape in Hs. injection Hs as <- <-.
    now apply launch_no_instance.
  - destruct (softmax_outcome caps compiler x y w)
      as [Hlen|n_rows n_cols' Hs|n_rows n_cols' Hs|n_rows n_cols' grid Hs Hg];
      cbn [snd trace].
    + rewrite Hshape in Hlen. cbn in Hlen. congruence.
    + rewrite Hshape in Hs. injection Hs as <- <-.
      exists []. split; [reflexivity | intros []].
    + rewrite Hshape in Hs. injection Hs as <- <-.
      exists [EvInitHandles]. split; [reflexivity|].
      intros [H|[]]; discriminate.
    + rewrite Hshape in Hs. injection Hs as <- <-.
      exists [EvInitHandles; EvLaunch grid]. split; [reflexivity|].
      intros [H|[H|[]]]; discriminate.
  - intros fp Hc Hr Hs.
    pose proof (softmax_planned caps compiler x y 0 n_cols fp w
                  Hshape Hc Hr Hs) as Hrun.
    assert (Hle : Reference.num_programs caps fp
                    (width_table (next_power_of_2 n_cols)) 0 <= 0)
      by apply Z.le_min_r.
    eexists. split; [exact Hle|].
    rewrite Hrun. rewrite launch_no_instance by exact Hle. reflexivity.
Qed.

Lemma no_rows_run_witness :
  let x := contiguous 0 0 781 in
  let y := contiguous 0 0 781 in
  let r := softmax small_sram failing_compiler x y (filled NaN) in
  heap (snd r) = heap (filled NaN)
  /\ exists rest,
       trace (snd r) =
         EvEmptyLike
         :: EvWarmup (Reference.planned_args small_sram x y 0 781) :: rest
       /\ ~ In EvGetDeviceProperties rest.
Proof.
  intros x y r.
  destruct (no_rows_run small_sram failing_compiler x y 781 (filled NaN)
              eq_refl) as (Hheap & Htrace & _).
  split; [exact Hheap | exact Htrace].
Defined.

(** X1: a call that ends with an exception has left the device memory as
    it was and has issued no launch; a call that returns hands back [y]
    after exactly one launch, which is its last action. *)
Theorem softmax_launch_iff_success (caps : DeviceProperties)
    (compiler : WarmupArgs -> option CompiledKernel) (x y : Tensor)
    (w : world) :
  let r := softmax caps compiler x y w in
  (forall e, fst r = inl e ->
     heap (snd r) = heap w
     /\ exists evs, trace (snd r) = trace w ++ evs
                    /\ existsb Reference.is_launch evs = false)
  /\ (forall t, fst r = inr t ->
        t = y
        /\ exists evs grid,
             trace (snd r) = trace w ++ evs ++ [EvLaunch grid]
             /\ existsb Reference.is_launch evs = false).
Proof.
  intros r. unfold r.
  destruct (softmax_outcome caps compiler x y w); cbn [fst snd heap trace];
    split; intros v Hv; try discriminate.
  - split; [reflexivity|]. exists []. now rewrite app_nil_r.
  - split; [reflexivity|]. eexists. split; reflexivity.
  - split; [reflexivity|]. eexists. split; reflexivity.
  - split; [congruence|].
    exists [EvEmptyLike;
            EvWarmup (Reference.planned_args caps x y n_rows n_cols);
            EvInitHandles], grid.
    split; reflexivity.
Qed.

Lemma softmax_launch_iff_success_witness :
  let x := contiguous 0 2 3 in
  let y := contiguous 6 2 3 in
  heap (snd (softmax small_sram failing_compiler x y (filled NaN))) =
    heap (filled NaN).
Proof.
  intros x y.
  apply (proj1 (softmax_launch_iff_success small_sram failing_compiler x y
                  (filled NaN)) CompilationError).
  reflexivity.
Defined.

(** X2: the rank check of line 56: the call ends with [AssertionError]
    exactly when the input is not of rank 2, and then before anything
    else happens (no allocation, no compilation, memory untouched). *)
Theorem assertion_iff_not_rank2 (caps : DeviceProperties)
    (compiler : WarmupArgs -> option CompiledKernel) (x y : Tensor)
    (w : world) :
  (length (shape x) <> 2%nat ->
     softmax caps compiler x y w = (inl AssertionError, w))
  /\ (fst (softmax caps compiler x y w) = inl AssertionError ->
        length (shape x) <> 2%nat).
Proof.
  split; [apply softmax_not_rank2|].
  destruct (softmax_outcome caps compiler x y w); cbn [fst];
    intros Hraise; try discriminate. assumption.
Qed.

Lemma assertion_iff_not_rank2_witness :
  let x := {| data_ptr := 0; shape := [2; 3; 4]; stride := [12; 4; 1] |} in
  softmax small_sram light_compiler x x (filled NaN) =
    (inl AssertionError, filled NaN).
Proof.
  intros x.
  apply (proj1 (assertion_iff_not_rank2 small_sram light_compiler x x
                  (filled NaN))).
  cbn. discriminate.
Defined.

(** X3: once the kernel is compiled, the call ends with
    [ZeroDivisionError] exactly when the compiled kernel reports no shared
    memory, or the register divisor [n_regs * WARP_SIZE * num_wraps] is
    zero; the exception comes after the compilation and before any
    launch. *)
Theorem zero_division_iff (caps : DeviceProperties)
    (compiler : WarmupArgs -> option CompiledKernel) (x y : Tensor)
    (n_rows n_cols : Z) (fp : CompiledKernel) (w : world) :
  shape x = [n_rows; n_cols] ->
  compiler (Reference.planned_args caps x y n_rows n_cols) = Some fp ->
  let zero_divisor :=
    n_regs fp * warpSize caps * choose_num_wraps (next_power_of_2 n_cols) = 0
    \/ metadata_shared fp = 0 in
  (fst (softmax caps compiler x y w) = inl ZeroDivisionError <-> zero_divisor)
  /\ (zero_divisor ->
        softmax caps compiler x y w =
          (inl ZeroDivisionError,
           {| heap := heap w;
              trace := trace w ++
                [EvEmptyLike;
                 EvWarmup (Reference.planned_args caps x y n_rows n_cols);
                 EvInitHandles] |})).
Proof.
  intros Hshape Hc zero_divisor.
  assert (Hz : zero_divisor ->
               softmax caps compiler x y w =
                 (inl ZeroDivisionError,
                  {| heap := heap w;
                     trace := trace w ++
                       [EvEmptyLike;
                        EvWarmup (Reference.planned_args caps x y n_rows n_cols);
                        EvInitHandles] |})).
  { intros Hz.
    apply (softmax_zero_division caps compiler x y n_rows n_cols Hshape fp w
             Hc Hz). }
  split; [|exact Hz]. split.
  - intros Hraise.
    destruct (Z.eq_dec (n_regs fp * warpSize caps
                        * choose_num_wraps (next_power_of_2 n_cols)) 0)
      as [Hr|Hr]; [now left|].
    destruct (Z.eq_dec (metadata_shared fp) 0) as [Hs|Hs]; [now right|].
    rewrite (softmax_run caps compiler x y n_rows n_cols Hshape fp w Hc Hr Hs)
      in Hraise.
    discriminate.
  - intros H. rewrite (Hz H). reflexivity.
Qed.

Lemma zero_division_iff_witness :
  let x := contiguous 0 2 3 in
  let y := contiguous 6 2 3 in
  fst (softmax small_sram no_sram_compiler x y (filled NaN)) =
    inl ZeroDivisionError.
Proof.
  intros x y.
  apply (proj1 (zero_division_iff small_sram no_sram_compiler x y 2 3
                  {| n_regs := 32; metadata_shared := 0 |} (filled NaN)
                  eq_refl eq_refl)).
  right. reflexivity.
Defined.

(** X4: whatever the outcome, the call changes no address outside the
    [n_rows] by [n_cols] entries of the output tensor; in particular an
    input that lies apart from the output is never modified. *)
Theorem softmax_frame (caps : DeviceProperties)
    (compiler : WarmupArgs -> option CompiledKernel) (x y : Tensor)
    (n_rows n_cols : Z) (w : world) (a : Z) :
  shape x = [n_rows; n_cols] ->
  ~ Reference.cell_of y n_rows n_cols a ->
  heap (snd (softmax caps compiler x y w)) a = heap w a.
Proof.
  intros Hshape Hout.
  destruct (softmax_outcome caps compiler x y w) as [| | |r c grid Hs Hg];
    cbn [snd heap]; try reflexivity.
  rewrite Hshape in Hs. injection Hs as <- <-.
  apply launch_frame, Hout.
Qed.

Lemma softmax_frame_witness :
  let x := contiguous 0 2 3 in
  let y := contiguous 6 2 3 in
  heap (snd (softmax small_sram light_compiler x y (filled (Fin 0%R)))) 4 =
    Fin 0%R.
Proof.
  intros x y.
  rewrite (softmax_frame small_sram light_compiler x y 2 3); [reflexivity
    | reflexivity |].
  intros (r & c & Hr & Hc & Heq).
  unfold y, stride0, contiguous in Heq. cbn [data_ptr stride nth] in Heq. lia.
Defined.

(** ** Maxima and sums of a row of reals *)

Section RowMath.

Local Open Scope R_scope.

Lemma fold_Rmax_ge_acc (l : list R) (a : R) : a <= fold_left Rmax l a.
Proof.
  revert a. induction l as [|u l IH]; intros a; cbn; [lra|].
  eapply Rle_trans; [apply (Rmax_l a u) | apply IH].
Qed.

Lemma fold_Rmax_ge_elem (l : list R) (a v : R) :
  In v l -> v <= fold_left Rmax l a.
Proof.
  revert a. induction l as [|u l IH]; intros a Hin; [destruct Hin|].
  cbn. destruct Hin as [->|Hin]; [|now apply IH].
  eapply Rle_trans; [apply (Rmax_r a v) | apply fold_Rmax_ge_acc].
Qed.

Lemma fold_Rmax_in (l : list R) (a : R) :
  fold_left Rmax l a = a \/ In (fold_left Rmax l a) l.
Proof.
  revert a. induction l as [|u l IH]; intros a; cbn; [now left|].
  destruct (IH (Rmax a u)) as [Heq|Hin]; [|now right; right].
  rewrite Heq. unfold Rmax. destruct (Rle_dec a u); [right; now left | now left].
Qed.

Lemma row_max_ge (l : list R) (v : R) : In v l -> v <= Reference.row_max l.
Proof.
  destruct l as [|u l]; intros Hin; [destruct Hin|]. cbn.
  destruct Hin as [->|Hin]; [apply fold_Rmax_ge_acc | now apply fold_Rmax_ge_elem].
Qed.

Lemma row_max_in (l : list R) : l <> [] -> In (Reference.row_max l) l.
Proof.
  destruct l as [|u l]; [congruence|]. intros _. cbn [Reference.row_max].
  destruct (fold_Rmax_in l u) as [->|Hin]; [now left | now right].
Qed.

Lemma fold_Rmax_shift (l : list R) (a k : R) :
  fold_left Rmax (map (fun v => v + k) l) (a + k) = fold_left Rmax l a + k.
Proof.
  revert a. induction l as [|u l IH]; intros a; cbn; [reflexivity|].
  rewrite <- IH. f_equal. unfold Rmax.
  destruct (Rle_dec (a + k) (u + k)), (Rle_dec a u); lra.
Qed.

Lemma row_max_shift (l : list R) (k : R) :
  l <> [] ->
  Reference.row_max (map (fun v => v + k) l) = Reference.row_max l + k.
Proof.
  destruct l as [|u l]; [congruence|]. intros _. cbn. apply fold_Rmax_shift.
Qed.

Lemma exp_le_1 (t : R) : t <= 0 -> 0 < exp t <= 1.
Proof.
  intros Ht. split; [apply exp_pos|]. rewrite <- exp_0.
  destruct Ht as [Hlt| ->]; [left; now apply exp_increasing | right; reflexivity].
Qed.

Lemma fold_Rplus_ge_acc (l : list R) (a : R) :
  Forall (fun v => 0 <= v) l -> a <= fold_left Rplus l a.
Proof.
  intros Hall. revert a. induction Hall as [|u l Hu Hall IH]; intros a; cbn;
    [lra|].
  eapply Rle_trans; [|apply IH]. lra.
Qed.

Lemma fold_Rplus_ge_elem (l : list R) (a v : R) :
  Forall (fun v => 0 <= v) l -> 0 <= a -> In v l -> v <= fold_left Rplus l a.
Proof.
  intros Hall. revert a. induction Hall as [|u l Hu Hall IH]; intros a Ha Hin;
    [destruct Hin|].
  cbn. destruct Hin as [->|Hin].
  - eapply Rle_trans; [|apply fold_Rplus_ge_acc; exact Hall]. lra.
  - apply IH; [lra | exact Hin].
Qed.

Lemma fold_Rplus_le_length (l : list R) (a : R) :
  Forall (fun v => v <= 1) l -> fold_left Rplus l a <= a + INR (length l).
Proof.
  intros Hall. revert a. induction Hall as [|u l Hu Hall IH]; intros a.
  - cbn. lra.
  - cbn [fold_left length]. rewrite S_INR.
    eapply Rle_trans; [apply IH|]. lra.
Qed.

Lemma fold_Rplus_div (l : list R) (a s : R) :
  fold_left Rplus (map (fun e => e / s) l) (a / s) = fold_left Rplus l a / s.
Proof.
  revert a. induction l as [|u l IH]; intros a; cbn; [reflexivity|].
  rewrite <- IH. f_equal. unfold Rdiv. ring.
Qed.

Variables (xr : Z -> R) (n_cols : Z).
Hypothesis Hcols : (1 <= n_cols)%Z.

Let xs := Reference.row_values xr n_cols.
Let es := Reference.row_exps xr n_cols.

Lemma In_row_values (c : Z) : (0 <= c < n_cols)%Z -> In (xr c) xs.
Proof.
  intros Hc. unfold xs, Reference.row_values. apply in_map.
  apply In_tl_arange. lia.
Qed.

Lemma row_values_not_nil : xs <> [].
Proof.
  intros H. pose proof (In_row_values 0 ltac:(lia)) as Hin.
  rewrite H in Hin. destruct Hin.
Qed.

Lemma row_exps_bounds : Forall (fun e => 0 < e <= 1) es.
Proof.
  unfold es, Reference.row_exps. apply Forall_forall. intros e He.
  apply in_map_iff in He. destruct He as (v & <- & Hv).
  apply exp_le_1. pose proof (row_max_ge _ _ Hv). fold xs. unfold xs in *. lra.
Qed.

Lemma row_exps_has_one : In 1 es.
Proof.
  unfold es, Reference.row_exps. apply in_map_iff.
  exists (Reference.row_max xs). split; [|apply row_max_in, row_values_not_nil].
  fold xs. replace (Reference.row_max xs - Reference.row_max xs) with 0 by lra.
  apply exp_0.
Qed.

Lemma length_row_exps : INR (length es) = IZR n_cols.
Proof.
  unfold es, Reference.row_exps, Reference.row_values.
  rewrite !length_map, length_tl_arange, INR_IZR_INZ. f_equal. lia.
Qed.

(** The normalising sum lies between 1 and the number of columns. *)
Lemma row_sum_bounds : 1 <= Reference.row_sum es <= IZR n_cols.
Proof.
  pose proof row_exps_bounds as Hb. split.
  - apply fold_Rplus_ge_elem; [|lra|apply row_exps_has_one].
    eapply Forall_impl; [|exact Hb]. cbn. intros; lra.
  - unfold Reference.row_sum. rewrite <- length_row_exps.
    eapply Rle_trans; [apply fold_Rplus_le_length|lra].
    eapply Forall_impl; [|exact Hb]. cbn. intros; lra.
Qed.

Lemma softmax_value_probability (c : Z) :
  (0 <= c < n_cols)%Z ->
  Reference.probability (Reference.softmax_value xr n_cols c).
Proof.
  intros Hc. unfold Reference.probability, Reference.softmax_value.
  fold es. fold xs.
  pose proof row_sum_bounds as [Hs1 _].
  pose proof row_exps_bounds as Hb.
  assert (Hin : In (exp (xr c - Reference.row_max xs)) es).
  { unfold es, Reference.row_exps. fold xs.
    apply (in_map (fun v => exp (v - Reference.row_max xs))).
    now apply In_row_values. }
  assert (Hle : exp (xr c - Reference.row_max xs) <= Reference.row_sum es).
  { apply fold_Rplus_ge_elem; [|lra|exact Hin].
    eapply Forall_impl; [|exact Hb]. cbn. intros; lra. }
  pose proof (exp_pos (xr c - Reference.row_max xs)) as Hpos.
  split.
  - apply Rdiv_lt_0_compat; lra.
  - apply Rmult_le_reg_r with (r := Reference.row_sum es); [lra|].
    unfold Rdiv. rewrite Rmult_assoc, Rinv_l by lra. lra.
Qed.

Lemma softmax_values_sum :
  Reference.row_sum
    (Reference.row_values (Reference.softmax_value xr n_cols) n_cols) = 1.
Proof.
  pose proof row_sum_bounds as [Hs1 _].
  unfold Reference.row_values at 1.
  unfold Reference.softmax_value. fold es. fold xs.
  replace (map (fun c => exp (xr c - Reference.row_max xs) / Reference.row_sum es)
               (tl_arange 0 n_cols))
    with (map (fun e => e / Reference.row_sum es) es).
  - unfold Reference.row_sum at 1.
    replace 0 with (0 / Reference.row_sum es) at 1 by (unfold Rdiv; ring).
    rewrite fold_Rplus_div. fold (Reference.row_sum es).
    unfold Rdiv. apply Rinv_r. lra.
  - unfold es, Reference.row_exps. fold xs. unfold xs, Reference.row_values.
    rewrite !map_map. reflexivity.
Qed.

End RowMath.

Lemma softmax_value_shift (xr : Z -> R) (n_cols : Z) (k : R) (c : Z) :
  1 <= n_cols ->
  Reference.softmax_value (fun j => (xr j + k)%R) n_cols c =
  Reference.softmax_value xr n_cols c.
Proof.
  intros Hn. unfold Reference.softmax_value, Reference.row_exps.
  assert (Hvals : Reference.row_values (fun j => (xr j + k)%R) n_cols =
                  map (fun v => (v + k)%R) (Reference.row_values xr n_cols)).
  { unfold Reference.row_values. now rewrite map_map. }
  rewrite Hvals, row_max_shift by now apply row_values_not_nil.
  rewrite map_map. f_equal; [f_equal; lra|]. f_equal.
  apply map_ext. intros v. f_equal. lra.
Qed.

(** The entries of the output after a run in the setting [run_ok]. *)
Lemma softmax_entries (caps : DeviceProperties)
    (compiler : WarmupArgs -> option CompiledKernel)
    (x y : Tensor) (n_rows n_cols : Z) (fp : CompiledKernel) (w : world)
    (X : Z -> Z -> R) :
  Reference.run_ok caps compiler x y n_rows n_cols fp (heap w) X ->
  exists w',
    softmax caps compiler x y w = (inr y, w')
    /\ forall r c, 0 <= r < n_rows -> 0 <= c < n_cols ->
         heap w' (data_ptr y + r * stride0 y + c) =
         Fin (Reference.softmax_entry X n_cols r c).
Proof.
  intros (Hshape & Hcols & Hholds & Hdis & Hpitch & Hc & Hr & Hs & Hocc).
  eexists. split; [apply softmax_planned; eassumption|].
  intros r c Hrow Hcol. cbn [heap]. rewrite launch_schedule.
  apply fold_rows_values with (n_rows := n_rows).
  - split; [lia|]. apply next_power_of_2_geq. lia.
  - exact Hpitch.
  - intros r1 c1 r2 c2 H1 H2 H3 H4 Heq.
    apply (Hdis (data_ptr x + r1 * stride0 x + c1)).
    + exists r1, c1. auto.
    + exists r2, c2. auto.
  - intros r' Hr'. apply In_schedule in Hr'. lia.
  - exact Hholds.
  - apply In_schedule. unfold Reference.num_programs. lia.
  - exact Hcol.
Qed.

(** A small run in the setting [run_ok]: a 2 by 3 matrix of zeros. *)
Lemma run_ok_zeros :
  Reference.run_ok small_sram light_compiler (contiguous 0 2 3)
    (contiguous 6 2 3) 2 3 {| n_regs := 32; metadata_shared := 16384 |}
    (heap (filled (Fin 0%R))) zero_matrix.
Proof.
  unfold Reference.run_ok. split; [reflexivity|]. split; [lia|].
  split; [intros r c _ _; reflexivity|]. split.
  - intros a (r & c & Hr & Hc & ->) (r' & c' & Hr' & Hc' & Heq).
    unfold stride0, contiguous in Heq. cbn [data_ptr stride nth] in Heq. lia.
  - split; [unfold stride0, contiguous; cbn [stride nth]; lia|].
    split; [reflexivity|].
    split; [vm_compute; discriminate|].
    split; vm_compute; discriminate.
Defined.

(** X5: in the setting [run_ok] the call returns and every row of the
    output sums to one (over the reals). *)
Theorem softmax_rows_sum_to_one (caps : DeviceProperties)
    (compiler : WarmupArgs -> option CompiledKernel)
    (x y : Tensor) (n_rows n_cols : Z) (fp : CompiledKernel) (w : world)
    (X : Z -> Z -> R) :
  Reference.run_ok caps compiler x y n_rows n_cols fp (heap w) X ->
  exists w' out,
    softmax caps compiler x y w = (inr y, w')
    /\ (forall r c, 0 <= r < n_rows -> 0 <= c < n_cols ->
          heap w' (data_ptr y + r * stride0 y + c) = Fin (out r c))
    /\ forall r, 0 <= r < n_rows ->
         Reference.row_sum (Reference.row_values (out r) n_cols) = 1%R.
Proof.
  intros Hok. destruct (softmax_entries _ _ _ _ _ _ _ _ _ Hok) as (w' & Hrun & Hval).
  exists w', (Reference.softmax_entry X n_cols).
  split; [exact Hrun|]. split; [exact Hval|].
  intros r _. destruct Hok as (_ & Hcols & _).
  apply softmax_values_sum. lia.
Qed.

Lemma softmax_rows_sum_to_one_witness :
  exists w' out,
    softmax small_sram light_compiler (contiguous 0 2 3) (contiguous 6 2 3)
      (filled (Fin 0%R)) = (inr (contiguous 6 2 3), w')
    /\ (forall r c, 0 <= r < 2 -> 0 <= c < 3 ->
          heap w' (data_ptr (contiguous 6 2 3)
                   + r * stride0 (contiguous 6 2 3) + c) = Fin (out r c))
    /\ forall r, 0 <= r < 2 ->
         Reference.row_sum (Reference.row_values (out r) 3) = 1%R.
Proof.
  apply (softmax_rows_sum_to_one small_sram light_compiler _ _ 2 3 _
           (filled (Fin 0%R)) zero_matrix run_ok_zeros).
Defined.

(** X6: in the setting [run_ok] every entry of the output is a real
    number between 0 and 1, both included. *)
Theorem softmax_entries_bounded (caps : DeviceProperties)
    (compiler : WarmupArgs -> option CompiledKernel)
    (x y : Tensor) (n_rows n_cols : Z) (fp : CompiledKernel) (w : world)
    (X : Z -> Z -> R) :
  Reference.run_ok caps compiler x y n_rows n_cols fp (heap w) X ->
  exists w',
    softmax caps compiler x y w = (inr y, w')
    /\ forall r c, 0 <= r < n_rows -> 0 <= c < n_cols ->
         exists v, heap w' (data_ptr y + r * stride0 y + c) = Fin v
                   /\ (0 <= v <= 1)%R.
Proof.
  intros Hok. destruct (softmax_entries _ _ _ _ _ _ _ _ _ Hok) as (w' & Hrun & Hval).
  exists w'. split; [exact Hrun|]. intros r c Hr Hc.
  eexists. split; [apply Hval; assumption|].
  destruct Hok as (_ & Hcols & _).
  pose proof (softmax_value_probability (X r) n_cols ltac:(lia) c Hc) as Hp.
  unfold Reference.probability in Hp. unfold Reference.softmax_entry.
  split; [apply Rlt_le, Hp | apply Hp].
Qed.

Lemma softmax_entries_bounded_witness :
  exists w',
    softmax small_sram light_compiler (contiguous 0 2 3) (contiguous 6 2 3)
      (filled (Fin 0%R)) = (inr (contiguous 6 2 3), w')
    /\ forall r c, 0 <= r < 2 -> 0 <= c < 3 ->
         exists v, heap w' (data_ptr (contiguous 6 2 3)
                            + r * stride0 (contiguous 6 2 3) + c) = Fin v
                   /\ (0 <= v <= 1)%R.
Proof.
  apply (softmax_entries_bounded small_sram light_compiler _ _ 2 3 _
           (filled (Fin 0%R)) zero_matrix run_ok_zeros).
Defined.

(** X7: subtracting the row maximum (line 33) keeps the exponentials in
    range whatever the size of the inputs: for a row of [n_cols] reals
    every lane of the numerator is a real number between 0 and 1, and the
    denominator is a real number between 1 and [n_cols]. *)
Theorem stable_exponentials
    (input_ptr input_row_stride n_cols BLOCK_SIZE : Z)
    (m : mem) (row_idx : Z) (xr : Z -> R) :
  1 <= n_cols <= BLOCK_SIZE ->
  (forall c, 0 <= c < n_cols ->
     m (input_ptr + row_idx * input_row_stride + c) = Fin (xr c)) ->
  let row := load_row input_ptr input_row_stride n_cols BLOCK_SIZE m row_idx in
  Forall (fun v => exists e, v = Fin e /\ (0 <= e <= 1)%R) (numerator row)
  /\ exists s, denominator row = Fin s /\ (1 <= s <= IZR n_cols)%R.
Proof.
  intros Hcols Hrow row. unfold row. split.
  - rewrite (numerator_padded _ _ _ _ m row_idx xr Hcols Hrow).
    apply Forall_app. split.
    + apply Forall_forall. intros v Hv. apply in_map_iff in Hv.
      destruct Hv as (e & <- & He). exists e. split; [reflexivity|].
      pose proof (row_exps_bounds xr n_cols) as Hb.
      rewrite Forall_forall in Hb. specialize (Hb e He). lra.
    + apply Forall_forall. intros v Hv. apply repeat_spec in Hv. subst v.
      exists 0%R. split; [reflexivity | lra].
  - exists (Reference.row_sum (Reference.row_exps xr n_cols)).
    split; [apply (denominator_padded _ _ _ _ m row_idx xr Hcols Hrow)|].
    apply row_sum_bounds. lia.
Qed.

Lemma stable_exponentials_witness :
  exists s,
    denominator (load_row 0 3 3 4 (heap (filled (Fin 0%R))) 1) = Fin s
    /\ (1 <= s <= IZR 3)%R.
Proof.
  pose proof (stable_exponentials 0 3 3 4 (heap (filled (Fin 0%R))) 1
                (fun _ => 0%R) ltac:(lia) (fun _ _ => eq_refl)) as H.
  cbv zeta in H. exact (proj2 H).
Defined.

(** X8: adding one constant to every entry of a row does not change what
    the kernel stores for that row. *)
Theorem softmax_shift_invariant
    (input_ptr output_ptr input_row_stride output_row_stride : Z)
    (n_cols BLOCK_SIZE : Z) (m1 m2 : mem) (row_idx : Z) (xr : Z -> R) (k : R) :
  1 <= n_cols <= BLOCK_SIZE ->
  (forall c, 0 <= c < n_cols ->
     m1 (input_ptr + row_idx * input_row_stride + c) = Fin (xr c)) ->
  (forall c, 0 <= c < n_cols ->
     m2 (input_ptr + row_idx * input_row_stride + c) = Fin (xr c + k)%R) ->
  forall c, 0 <= c < n_cols ->
    softmax_row input_ptr output_ptr input_row_stride output_row_stride
      n_cols BLOCK_SIZE m2 row_idx
      (output_ptr + row_idx * output_row_stride + c) =
    softmax_row input_ptr output_ptr input_row_stride output_row_stride
      n_cols BLOCK_SIZE m1 row_idx
      (output_ptr + row_idx * output_row_stride + c).
Proof.
  intros Hcols H1 H2 c Hc.
  rewrite (softmax_row_value _ _ _ _ _ _ m1 row_idx xr Hcols H1 c Hc).
  rewrite (softmax_row_value _ _ _ _ _ _ m2 row_idx
             (fun j => (xr j + k)%R) Hcols H2 c Hc).
  f_equal. apply softmax_value_shift. lia.
Qed.

Lemma softmax_shift_invariant_witness :
  softmax_row 0 100 3 3 3 4 (heap (filled (Fin (0 + 5)%R))) 1 (100 + 1 * 3 + 2) =
  softmax_row 0 100 3 3 3 4 (heap (filled (Fin 0%R))) 1 (100 + 1 * 3 + 2).
Proof.
  apply (softmax_shift_invariant 0 100 3 3 3 4 (heap (filled (Fin 0%R)))
           (heap (filled (Fin (0 + 5)%R))) 1 (fun _ => 0%R) 5%R
           ltac:(lia) (fun _ _ => eq_refl) (fun _ _ => eq_refl) 2).
  lia.
Defined.

(** ** How the rows are shared out *)

Lemma length_rows_of (n_rows pid np : Z) :
  0 < np ->
  length (rows_of n_rows pid np) = Z.to_nat ((n_rows - pid + np - 1) / np).
Proof.
  intros Hnp. unfold rows_of, tl_range.
  destruct (Z.ltb_spec 0 np) as [_|]; [|lia].
  now rewrite length_map, length_seq.
Qed.

(** X9: the grid-stride loop of line 19 shares the rows out evenly: an
    instance with a larger id never has more rows than one with a smaller
    id, no two instances differ by more than one row, and no instance has
    more than [ceil (n_rows / num_programs)] rows. *)
Theorem rows_balanced (n_rows num_programs p q : Z) :
  0 <= p <= q -> q < num_programs ->
  (length (rows_of n_rows q num_programs)
     <= length (rows_of n_rows p num_programs)
     <= length (rows_of n_rows q num_programs) + 1)%nat
  /\ (length (rows_of n_rows p num_programs)
        <= Z.to_nat ((n_rows + num_programs - 1) / num_programs))%nat.
Proof.
  intros Hp Hq. rewrite !length_rows_of by lia.
  set (np := num_programs) in *.
  assert (Hlow : (n_rows - q + np - 1) / np <= (n_rows - p + np - 1) / np)
    by (apply Z.div_le_mono; lia).
  assert (Hup : (n_rows - p + np - 1) / np <= (n_rows - q + np - 1) / np + 1).
  { rewrite <- (Z.div_add (n_rows - q + np - 1) 1 np) by lia.
    apply Z.div_le_mono; lia. }
  assert (Hmax : (n_rows - p + np - 1) / np <= (n_rows + np - 1) / np)
    by (apply Z.div_le_mono; lia).
  lia.
Qed.

Lemma rows_balanced_witness :
  (length (rows_of 10 2 3) <= length (rows_of 10 0 3)
     <= length (rows_of 10 2 3) + 1)%nat.
Proof.
  apply (rows_balanced 10 3 0 2); lia.
Defined.

(** X10: when there are at least as many instances as rows, which is
    what the wrapper launches whenever the device has room for [n_rows]
    instances, instance [i] processes row [i] alone, and the instances
    from [n_rows] on process nothing. *)
Theorem one_row_per_instance (n_rows num_programs pid : Z) :
  n_rows <= num_programs -> 0 <= pid < num_programs ->
  rows_of n_rows pid num_programs = if pid <? n_rows then [pid] else [].
Proof.
  intros Hn Hp. unfold rows_of, tl_range.
  destruct (Z.ltb_spec 0 num_programs) as [_|]; [|lia].
  destruct (Z.ltb_spec pid n_rows) as [Hlt|Hge].
  - replace ((n_rows - pid + num_programs - 1) / num_programs) with 1.
    + change (Z.to_nat 1) with 1%nat. cbn [seq map]. f_equal. lia.
    + apply (Z.div_unique _ _ 1 (n_rows - pid - 1)); lia.
  - assert ((n_rows - pid + num_programs - 1) / num_programs < 1)
      by (apply Z.div_lt_upper_bound; lia).
    replace (Z.to_nat _) with 0%nat by lia. reflexivity.
Qed.

Lemma one_row_per_instance_witness : rows_of 5 3 5 = [3].
Proof.
  apply (one_row_per_instance 5 5 3); lia.
Defined.

(** X11: for [1 <= n <= 2^64] the block size [next_power_of_2 n] is at
    least [n] and less than [2 n], so fewer than half of the lanes are
    padding; on a power of two it is [n] itself. *)
Theorem block_size_bounds (n : Z) :
  1 <= n <= 2 ^ 64 ->
  n <= next_power_of_2 n < 2 * n
  /\ (is_pow2 n -> next_power_of_2 n = n).
Proof.
  intros Hn.
  pose proof (next_power_of_2_smallest n Hn) as (Hpow & Hge & Hleast).
  split; [split; [exact Hge|] |].
  - destruct (Z.eq_dec n 1) as [->|Hne]; [vm_compute; reflexivity|].
    rewrite next_power_of_2_log2 by lia.
    pose proof (Z.log2_spec (n - 1) ltac:(lia)) as [Hlo _].
    rewrite Z.pow_add_r by (try apply Z.log2_nonneg; lia).
    lia.
  - intros Hp. apply Z.le_antisymm; [apply Hleast; [exact Hp | lia] | exact Hge].
Qed.

Lemma block_size_bounds_witness :
  781 <= next_power_of_2 781 < 2 * 781.
Proof.
  apply (block_size_bounds 781). lia.
Defined.

(** ** Instances do not interfere *)

Section Interference.

Variables (input_ptr output_ptr input_row_stride output_row_stride : Z).
Variables (n_rows n_cols BLOCK_SIZE : Z).

Local Abbreviation step :=
  (softmax_row input_ptr output_ptr input_row_stride output_row_stride
     n_cols BLOCK_SIZE).
Local Abbreviation writes :=
  (instance_writes output_ptr output_row_stride n_rows n_cols BLOCK_SIZE).
Local Abbreviation reads :=
  (instance_reads input_ptr input_row_stride n_rows n_cols BLOCK_SIZE).

Lemma combine_map_map (A : Type) (pf : A -> Z) (bf : A -> bool) (l : list A) :
  combine (map pf l) (map bf l) = map (fun c => (pf c, bf c)) l.
Proof. induction l as [|c l IH]; cbn; [reflexivity | now f_equal]. Qed.

Lemma In_enabled_ptrs (pf : Z -> Z) (bf : Z -> bool) (cols : list Z) (a : Z) :
  In a (enabled_ptrs (map pf cols) (map bf cols)) <->
  exists c, In c cols /\ bf c = true /\ a = pf c.
Proof.
  unfold enabled_ptrs. rewrite combine_map_map, in_map_iff. split.
  - intros ([p b] & <- & Hin). apply filter_In in Hin. destruct Hin as [Hin Hb].
    apply in_map_iff in Hin. destruct Hin as (c & [= <- <-] & Hc).
    exists c. auto.
  - intros (c & Hc & Hb & ->). exists (pf c, bf c). split; [reflexivity|].
    apply filter_In. split; [|exact Hb].
    apply (in_map (fun c => (pf c, bf c))), Hc.
Qed.

Lemma In_row_writes (r a : Z) :
  In a (row_writes output_ptr output_row_stride n_cols BLOCK_SIZE r) <->
  exists c, 0 <= c < BLOCK_SIZE /\ c < n_cols
            /\ a = output_ptr + r * output_row_stride + c.
Proof.
  unfold row_writes, output_ptrs, mask, col_offsets. cbv zeta.
  rewrite In_enabled_ptrs. split.
  - intros (c & Hc & Hb & ->). apply In_tl_arange in Hc. apply Z.ltb_lt in Hb.
    exists c. repeat split; lia.
  - intros (c & Hc & Hn & ->). exists c. split; [apply In_tl_arange; lia|].
    split; [apply Z.ltb_lt; lia | reflexivity].
Qed.

Lemma In_row_reads (r a : Z) :
  In a (row_reads input_ptr input_row_stride n_cols BLOCK_SIZE r) <->
  exists c, 0 <= c < BLOCK_SIZE /\ c < n_cols
            /\ a = input_ptr + r * input_row_stride + c.
Proof.
  unfold row_reads, input_ptrs, mask, col_offsets. cbv zeta.
  rewrite In_enabled_ptrs. split.
  - intros (c & Hc & Hb & ->). apply In_tl_arange in Hc. apply Z.ltb_lt in Hb.
    exists c. repeat split; lia.
  - intros (c & Hc & Hn & ->). exists c. split; [apply In_tl_arange; lia|].
    split; [apply Z.ltb_lt; lia | reflexivity].
Qed.

(** An instance changes no address outside its write set. *)
Lemma instance_writes_sound (pid np : Z) (m : mem) (a : Z) :
  ~ In a (writes pid np) ->
  softmax_kernel input_ptr output_ptr input_row_stride output_row_stride
    n_rows n_cols BLOCK_SIZE pid np m a = m a.
Proof.
  unfold softmax_kernel, instance_writes.
  generalize (rows_of n_rows pid np) as rows. intros rows. revert m.
  induction rows as [|r rows IH]; intros m Hout; [reflexivity|].
  cbn [fold_left flat_map] in *.
  rewrite IH by (intros Hin; apply Hout, in_or_app; now right).
  apply softmax_row_frame. intros c Hc Hb ->.
  apply Hout, in_or_app. left. apply In_row_writes. exists c. repeat split; lia.
Qed.

(** One row depends on the heap at its read set only. *)
Lemma row_reads_sound (m m' : mem) (r : Z) :
  (forall a, In a (row_reads input_ptr input_row_stride n_cols BLOCK_SIZE r) ->
     m' a = m a) ->
  load_row input_ptr input_row_stride n_cols BLOCK_SIZE m' r =
  load_row input_ptr input_row_stride n_cols BLOCK_SIZE m r.
Proof.
  intros Hsame. rewrite !load_row_lanes. apply map_ext_in.
  intros c Hc. apply In_tl_arange in Hc.
  destruct (Z.ltb_spec c n_cols) as [Hlt|Hge]; [|reflexivity].
  apply Hsame, In_row_reads. exists c. repeat split; lia.
Qed.

(** Whether an address is an entry of one of the rows of a list. *)
Lemma visited_or_not (rows : list Z) (a : Z) :
  (exists r c, In r rows /\ 0 <= c < n_cols
               /\ a = output_ptr + r * output_row_stride + c)
  \/ (forall r c, In r rows -> 0 <= c < n_cols ->
        a <> output_ptr + r * output_row_stride + c).
Proof.
  induction rows as [|r0 rows IH]; [right; intros r c []|].
  destruct (Z_le_dec 0 (a - output_ptr - r0 * output_row_stride)) as [Hlo|Hlo].
  - destruct (Z_lt_dec (a - output_ptr - r0 * output_row_stride) n_cols)
      as [Hhi|Hhi].
    + left. exists r0, (a - output_ptr - r0 * output_row_stride).
      split; [now left|]. split; lia.
    + destruct IH as [(r & c & Hin & Hc & Heq)|Hfree].
      * left. exists r, c. split; [now right|]. split; assumption.
      * right. intros r c [<-|Hin] Hc; [lia | now apply Hfree].
  - destruct IH as [(r & c & Hin & Hc & Heq)|Hfree].
    + left. exists r, c. split; [now right|]. split; assumption.
    + right. intros r c [<-|Hin] Hc; [lia | now apply Hfree].
Qed.

End Interference.

(** X12: different instances of one launch never write the same address
    (rows of the output not overlapping), an instance changes nothing
    outside its own write set, and with the input apart from the output
    no instance writes what an instance reads.  The instances need no
    synchronisation. *)
Theorem instances_race_free
    (input_ptr output_ptr input_row_stride output_row_stride : Z)
    (n_rows n_cols BLOCK_SIZE num_programs : Z) :
  1 <= num_programs ->
  n_cols <= output_row_stride ->
  (forall r c r' c',
     0 <= r < n_rows -> 0 <= c < n_cols ->
     0 <= r' < n_rows -> 0 <= c' < n_cols ->
     input_ptr + r * input_row_stride + c <>
     output_ptr + r' * output_row_stride + c') ->
  let writes :=
    instance_writes output_ptr output_row_stride n_rows n_cols BLOCK_SIZE in
  let reads :=
    instance_reads input_ptr input_row_stride n_rows n_cols BLOCK_SIZE in
  (forall p q a, 0 <= p < num_programs -> 0 <= q < num_programs -> p <> q ->
     In a (writes p num_programs) -> ~ In a (writes q num_programs))
  /\ (forall p q a, 0 <= p < num_programs -> 0 <= q < num_programs ->
        In a (reads p num_programs) -> ~ In a (writes q num_programs))
  /\ (forall pid m a, ~ In a (writes pid num_programs) ->
        softmax_kernel input_ptr output_ptr input_row_stride
          output_row_stride n_rows n_cols BLOCK_SIZE pid num_programs m a
        = m a).
Proof.
  intros Hnp Hpitch Hapart writes reads. unfold writes, reads.
  split; [|split].
  - intros p q a Hp Hq Hne Hwp Hwq.
    unfold instance_writes in Hwp, Hwq.
    apply in_flat_map in Hwp, Hwq.
    destruct Hwp as (r1 & Hr1 & Ha1). destruct Hwq as (r2 & Hr2 & Ha2).
    apply In_row_writes in Ha1, Ha2.
    destruct Ha1 as (c1 & Hc1 & Hn1 & ->). destruct Ha2 as (c2 & Hc2 & Hn2 & Heq).
    apply In_rows_of in Hr1, Hr2; try lia.
    assert (r1 <> r2) by (intros ->; lia).
    assert (Hz : (r1 - r2) * output_row_stride = c2 - c1) by lia.
    destruct (Z_le_gt_dec 0 (r1 - r2)); nia.
  - intros p q a Hp Hq Hrp Hwq.
    unfold instance_reads in Hrp. unfold instance_writes in Hwq.
    apply in_flat_map in Hrp, Hwq.
    destruct Hrp as (r1 & Hr1 & Ha1). destruct Hwq as (r2 & Hr2 & Ha2).
    apply In_row_reads in Ha1. apply In_row_writes in Ha2.
    destruct Ha1 as (c1 & Hc1 & Hn1 & ->). destruct Ha2 as (c2 & Hc2 & Hn2 & Heq).
    apply In_rows_of in Hr1, Hr2; try lia.
    apply (Hapart r1 c1 r2 c2); lia.
  - intros pid m a. apply instance_writes_sound.
Qed.

Lemma instances_race_free_witness :
  ~ In 100 (instance_writes 100 3 4 3 4 1 2).
Proof.
  apply (proj1 (instances_race_free 0 100 3 3 4 3 4 2 ltac:(lia) ltac:(lia)
                  ltac:(intros; lia)) 0 1 100); try lia.
  vm_compute. left. reflexivity.
Defined.

(** X13: for a matrix of reals, processing the rows of a launch in any
    other order gives the same memory: the sequential order of the
    instances stands for every interleaving of their iterations. *)
Theorem launch_order_irrelevant
    (input_ptr output_ptr input_row_stride output_row_stride : Z)
    (n_rows n_cols BLOCK_SIZE num_programs : Z) (X : Z -> Z -> R)
    (m : mem) (rows : list Z) :
  1 <= n_cols <= BLOCK_SIZE ->
  n_cols <= output_row_stride ->
  (forall r c r' c',
     0 <= r < n_rows -> 0 <= c < n_cols ->
     0 <= r' < n_rows -> 0 <= c' < n_cols ->
     input_ptr + r * input_row_stride + c <>
     output_ptr + r' * output_row_stride + c') ->
  (forall r c, 0 <= r < n_rows -> 0 <= c < n_cols ->
     m (input_ptr + r * input_row_stride + c) = Fin (X r c)) ->
  Permutation (Reference.schedule n_rows num_programs) rows ->
  forall a,
    fold_left (softmax_row input_ptr output_ptr input_row_stride
                 output_row_stride n_cols BLOCK_SIZE) rows m a =
    Kernel.launch input_ptr output_ptr input_row_stride output_row_stride
      n_rows n_cols BLOCK_SIZE num_programs m a.
Proof.
  intros Hcols Hpitch Hapart Hm Hperm a. rewrite launch_schedule.
  assert (Hsched : forall r, In r (Reference.schedule n_rows num_programs) ->
                             0 <= r < n_rows)
    by (intros r Hr; apply In_schedule in Hr; lia).
  assert (Hrows : forall r, In r rows -> 0 <= r < n_rows).
  { intros r Hr. apply Hsched. eapply Permutation_in; [|exact Hr].
    now apply Permutation_sym. }
  destruct (visited_or_not output_ptr output_row_stride n_cols rows a)
    as [(r & c & Hin & Hc & ->)|Hfree].
  - rewrite (fold_rows_values input_ptr output_ptr input_row_stride
               output_row_stride n_rows n_cols BLOCK_SIZE X Hcols Hpitch
               Hapart rows m Hrows Hm r c Hin Hc).
    symmetry. apply (fold_rows_values input_ptr output_ptr input_row_stride
                       output_row_stride n_rows n_cols BLOCK_SIZE X Hcols
                       Hpitch Hapart _ m Hsched Hm r c); [|exact Hc].
    eapply Permutation_in; [|exact Hin]. now apply Permutation_sym.
  - rewrite fold_rows_frame by exact Hfree.
    symmetry. apply fold_rows_frame. intros r c Hr Hc.
    apply Hfree; [|exact Hc]. eapply Permutation_in; [exact Hperm | exact Hr].
Qed.

Lemma launch_order_irrelevant_witness :
  fold_left (softmax_row 0 100 3 3 3 4) [1; 0] (heap (filled (Fin 0%R))) 104 =
  Kernel.launch 0 100 3 3 2 3 4 1 (heap (filled (Fin 0%R))) 104.
Proof.
  apply (launch_order_irrelevant 0 100 3 3 2 3 4 1 zero_matrix
           (heap (filled (Fin 0%R))) [1; 0]).
  - lia.
  - lia.
  - intros; lia.
  - intros; reflexivity.
  - apply perm_swap.
Defined.

(** ** Rows that are not made of real numbers *)

Section NonFinite.

Lemma xmax_PInf_l (b : xreal) : xmax PInf b = PInf.
Proof. destruct b; reflexivity. Qed.

Lemma xmax_PInf_r (a : xreal) : xmax a PInf = PInf.
Proof. destruct a; reflexivity. Qed.

Lemma fold_xmax_PInf (l : list xreal) : fold_left xmax l PInf = PInf.
Proof.
  induction l as [|v l IH]; cbn [fold_left]; [reflexivity|].
  now rewrite xmax_PInf_l.
Qed.

Lemma fold_xmax_has_PInf (l : list xreal) (a : xreal) :
  In PInf l -> fold_left xmax l a = PInf.
Proof.
  revert a. induction l as [|v l IH]; intros a Hin; [destruct Hin|].
  cbn [fold_left]. destruct Hin as [->|Hin]; [|now apply IH].
  rewrite xmax_PInf_r. apply fold_xmax_PInf.
Qed.

Lemma tl_max_has_PInf (l : list xreal) : In PInf l -> tl_max l = PInf.
Proof.
  destruct l as [|v l]; intros Hin; [destruct Hin|].
  unfold tl_max, reduce. destruct Hin as [->|Hin];
    [apply fold_xmax_PInf | now apply fold_xmax_has_PInf].
Qed.

Lemma xadd_NaN_r (a : xreal) : xadd a NaN = NaN.
Proof. destruct a; reflexivity. Qed.

Lemma fold_xadd_NaN (l : list xreal) : fold_left xadd l NaN = NaN.
Proof. induction l as [|v l IH]; cbn; [reflexivity | exact IH]. Qed.

Lemma fold_xadd_has_NaN (l : list xreal) (a : xreal) :
  In NaN l -> fold_left xadd l a = NaN.
Proof.
  revert a. induction l as [|v l IH]; intros a Hin; [destruct Hin|].
  cbn [fold_left]. destruct Hin as [->|Hin]; [|now apply IH].
  rewrite xadd_NaN_r. apply fold_xadd_NaN.
Qed.

Lemma tl_sum_has_NaN (l : list xreal) : In NaN l -> tl_sum l = NaN.
Proof.
  destruct l as [|v l]; intros Hin; [destruct Hin|].
  unfold tl_sum, reduce. destruct Hin as [->|Hin];
    [apply fold_xadd_NaN | now apply fold_xadd_has_NaN].
Qed.

Lemma xdiv_NaN_r (a : xreal) : xdiv a NaN = NaN.
Proof. destruct a; reflexivity. Qed.

Variables (input_ptr output_ptr input_row_stride output_row_stride : Z).
Variables (n_cols BLOCK_SIZE : Z).

(** What the kernel stores for an enabled lane, whatever the row holds. *)
Lemma softmax_row_lane (m : mem) (row_idx c : Z) :
  0 <= c < n_cols -> c < BLOCK_SIZE ->
  let row := load_row input_ptr input_row_stride n_cols BLOCK_SIZE m row_idx in
  softmax_row input_ptr output_ptr input_row_stride output_row_stride
    n_cols BLOCK_SIZE m row_idx
    (output_ptr + row_idx * output_row_stride + c) =
  xdiv (xexp (xsub (m (input_ptr + row_idx * input_row_stride + c))
                   (tl_max row)))
       (denominator row).
Proof.
  intros Hc Hb row. unfold softmax_row. cbv zeta. fold row.
  rewrite softmax_output_map.
  set (mx := tl_max row). set (den := denominator row).
  unfold row. rewrite load_row_lanes, map_map.
  unfold output_ptrs, mask, col_offsets. cbv zeta.
  pose proof (tl_store_hit
                (fun c => output_ptr + row_idx * output_row_stride + c)
                (fun c => c <? n_cols)
                (fun c => xdiv (xexp (xsub
                    (if c <? n_cols
                     then m (input_ptr + row_idx * input_row_stride + c)
                     else NInf) mx)) den)
                (tl_arange 0 BLOCK_SIZE) m c (NoDup_tl_arange _ _)) as Hhit.
  cbv beta in Hhit. rewrite Hhit; clear Hhit.
  - destruct (Z.ltb_spec c n_cols); [reflexivity | lia].
  - intros c1 c2 _ _ Heq. lia.
  - apply In_tl_arange. lia.
  - apply Z.ltb_lt. lia.
Qed.

Lemma numerator_has_NaN (m : mem) (row_idx c0 : Z) :
  0 <= c0 < n_cols -> c0 < BLOCK_SIZE ->
  m (input_ptr + row_idx * input_row_stride + c0) = PInf
  \/ m (input_ptr + row_idx * input_row_stride + c0) = NaN ->
  In NaN (numerator
            (load_row input_ptr input_row_stride n_cols BLOCK_SIZE m row_idx)).
Proof.
  intros Hc Hb Hbad.
  set (row := load_row input_ptr input_row_stride n_cols BLOCK_SIZE m row_idx).
  assert (Hlane : In (m (input_ptr + row_idx * input_row_stride + c0)) row).
  { unfold row. rewrite load_row_lanes. apply in_map_iff. exists c0.
    split; [|apply In_tl_arange; lia].
    destruct (Z.ltb_spec c0 n_cols); [reflexivity | lia]. }
  unfold numerator. cbv zeta. rewrite map_map. apply in_map_iff.
  exists (m (input_ptr + row_idx * input_row_stride + c0)).
  split; [|exact Hlane].
  destruct Hbad as [Hinf|Hnan].
  - rewrite Hinf in *. now rewrite (tl_max_has_PInf row Hlane).
  - now rewrite Hnan.
Qed.

End NonFinite.

(** X14: one entry that is plus infinity or NaN spoils its whole row:
    every entry the kernel stores for that row is NaN. *)
Theorem nonfinite_entry_spoils_row
    (input_ptr output_ptr input_row_stride output_row_stride : Z)
    (n_cols BLOCK_SIZE : Z) (m : mem) (row_idx c0 : Z) :
  0 <= c0 < n_cols -> c0 < BLOCK_SIZE ->
  m (input_ptr + row_idx * input_row_stride + c0) = PInf
  \/ m (input_ptr + row_idx * input_row_stride + c0) = NaN ->
  forall c, 0 <= c < n_cols -> c < BLOCK_SIZE ->
    softmax_row input_ptr output_ptr input_row_stride output_row_stride
      n_cols BLOCK_SIZE m row_idx
      (output_ptr + row_idx * output_row_stride + c) = NaN.
Proof.
  intros Hc0 Hb0 Hbad c Hc Hb.
  rewrite softmax_row_lane by assumption. cbv zeta.
  unfold denominator.
  rewrite (tl_sum_has_NaN _ (numerator_has_NaN _ _ _ _ m row_idx c0 Hc0 Hb0 Hbad)).
  apply xdiv_NaN_r.
Qed.

Lemma nonfinite_entry_spoils_row_witness :
  softmax_row 0 100 3 3 3 4 (heap (zeros_but 4 PInf)) 1 (100 + 1 * 3 + 0) = NaN.
Proof.
  apply (nonfinite_entry_spoils_row 0 100 3 3 3 4 (heap (zeros_but 4 PInf))
           1 1); try lia.
  left. reflexivity.
Defined.
